(** * mailer.py: composition of outgoing mail

    A shallow embedding of [src/mailer.py] (classes [Cipher], [MailAddress]
    and [Mailer]) and the properties of [Mailer.send] that its
    specification states.

    Modelling conventions.
    - A Python [str] is a [string] holding the UTF-8 bytes of the text, so
      [str.encode('utf-8')] is [list_byte_of_string]; tests for an ASCII
      character ('@', '/') read the same on both forms.  [bytes] is
      [list byte].
    - A [dict] with string keys is a [gmap string pyval]; the items of a
      [list], [tuple] or [set] are a [list] in iteration order.
    - Exceptions are an explicit result; logging and the SMTP hand-off are
      threaded through a [world].
    - The standard library ([email], [mimetypes], [os.path], [urllib],
      [smtplib]) is the environment [Env].
    - The methods of [Mailer] that change the object ([connect], [login],
      [quit]) return the Mailer they leave together with their result: an
      exception does not undo the assignments made before it. *)

From Stdlib Require Import ZArith List Ascii String Lia.
From Stdlib.Strings Require Import Byte.
From stdpp Require Import base option list gmap strings pretty.

Local Open Scope string_scope.
Local Open Scope list_scope.
Set Warnings "-register-all".

(** ** Strings: the [str] methods the module uses *)

(** [c in s] for a one-character [c]. *)
Fixpoint char_in (c : ascii) (s : string) : bool :=
  match s with
  | EmptyString => false
  | String a s' => if Ascii.eqb a c then true else char_in c s'
  end.

(** Number of occurrences of [c] in [s] ([s.count(c)]). *)
Fixpoint count_char (c : ascii) (s : string) : nat :=
  match s with
  | EmptyString => 0
  | String a s' => (if Ascii.eqb a c then 1 else 0) + count_char c s'
  end.

(** [s.split(c)]: every occurrence of [c] cuts. *)
Fixpoint split (c : ascii) (s : string) : list string :=
  match s with
  | EmptyString => [EmptyString]
  | String a s' =>
      if Ascii.eqb a c then EmptyString :: split c s'
      else match split c s' with
           | h :: t => String a h :: t
           | [] => [String a EmptyString]
           end
  end.

(** [s.split(c, 1)]: only the first occurrence of [c] cuts. *)
Fixpoint split1 (c : ascii) (s : string) : list string :=
  match s with
  | EmptyString => [EmptyString]
  | String a s' =>
      if Ascii.eqb a c then [EmptyString; s']
      else match split1 c s' with
           | h :: t => String a h :: t
           | [] => [String a EmptyString]
           end
  end.

(** [sep.join(l)]. *)
Fixpoint join (sep : string) (l : list string) : string :=
  match l with
  | [] => ""
  | [x] => x
  | x :: rest => x +:+ sep +:+ join sep rest
  end.

(** [sub in s] for an arbitrary [sub]. *)
Fixpoint str_in (sub s : string) : bool :=
  if String.prefix sub s then true
  else match s with
       | EmptyString => false
       | String _ s' => str_in sub s'
       end.

(** [os.path.basename] on POSIX: what follows the last '/'. *)
Definition basename (p : string) : string :=
  List.last (split "/" p) "".

(** Whether [s.encode('us-ascii')] succeeds. *)
Fixpoint is_ascii (s : string) : bool :=
  match s with
  | EmptyString => true
  | String a s' => (N_of_ascii a <? 128)%N && is_ascii s'
  end.

(** ** Python values *)

Inductive pyval :=
| PNone
| PStr (s : string)
| PBytes (b : list byte)
| PInt (z : Z).

Abbreviation dict := (gmap string pyval).

(** An argument item: a plain value or a [dict]. *)
Inductive item :=
| IVal (v : pyval)
| IDict (d : dict).

(** An argument that may be one object or a [list]/[tuple]/[set] of them. *)
Inductive arg :=
| ArgOne (x : item)
| ArgSeq (xs : list item).

(** [bool(v)]. *)
Definition truthy (v : pyval) : bool :=
  match v with
  | PNone => false
  | PStr s => negb (String.eqb s "")
  | PBytes b => match b with [] => false | _ => true end
  | PInt z => negb (z =? 0)%Z
  end.

Definition item_truthy (x : item) : bool :=
  match x with
  | IVal v => truthy v
  | IDict d => negb (bool_decide (d = ∅))
  end.

(** [a or b]. *)
Definition py_or (a b : pyval) : pyval := if truthy a then a else b.

(** [d.get(k, None)]. *)
Definition get (d : dict) (k : string) : pyval := default PNone (d !! k).

(** ** Exceptions *)

(** The [raise MailerException(...)] sites of the module, one constructor each. *)
Inductive mailer_error :=
| NamesNotACollection (argname : string)      (* _convert_names *)
| FromNotDerivable                            (* send: from_addr *)
| AttachmentWrongType (i : nat)
| AttachmentDataWrongType (i : nat)
| AttachmentFileMissing (i : nat) (path : string)
| DownloadFailed (url : string) (reason : string)
| AttachmentNoSource
| InlineCidMissing (i : nat)
| InlineCidGrammar
| InlineDataNotBytes (i : nat)
| InlineFileMissing (i : nat) (path : string)
| InlineNoSource
| InlineWithoutBody
| NothingToSend
| NoRecipientsDefined.

Inductive exn :=
| MailerException (e : mailer_error)
| TypeError
| ValueError
| AttributeError
| LibraryError (what : string).

(** The names section 7 of the specification gives to the composition errors. *)
Inductive error_kind :=
| InvalidContentType
| FileNotFound
| DownloadError (reason : string)
| InvalidContentId
| DanglingInline
| EmptyMessage
| NoRecipients
| InvalidArgument.

Definition kind_of (e : mailer_error) : error_kind :=
  match e with
  | AttachmentWrongType _ | AttachmentDataWrongType _ | InlineDataNotBytes _ =>
      InvalidContentType
  | AttachmentFileMissing _ _ | InlineFileMissing _ _ => FileNotFound
  | DownloadFailed _ reason => DownloadError reason
  | InlineCidMissing _ | InlineCidGrammar => InvalidContentId
  | InlineWithoutBody => DanglingInline
  | NothingToSend => EmptyMessage
  | NoRecipientsDefined => NoRecipients
  | NamesNotACollection _ | FromNotDerivable | AttachmentNoSource
  | InlineNoSource => InvalidArgument
  end.

(** ** MIME objects *)

(** [headers]: the fields set through [add_header] and [__setitem__], oldest
    first.  The fields the constructors write (Content-Type, MIME-Version,
    Content-Transfer-Encoding) are determined by the other components. *)
Inductive mime :=
| MIMEText (_subtype _charset _text : string) (headers : list (string * string))
| MIMEAnyType (_maintype _subtype Name : string) (_data : list byte)
    (headers : list (string * string))
| MIMEMultipart (_subtype : string) (parts : list mime)
    (headers : list (string * string)).

Definition headers_of (m : mime) : list (string * string) :=
  match m with
  | MIMEText _ _ _ h | MIMEAnyType _ _ _ _ h | MIMEMultipart _ _ h => h
  end.

(** The payload of a part that is not a multipart. *)
Definition payload_of (m : mime) : list byte :=
  match m with
  | MIMEText _ _ t _ => list_byte_of_string t
  | MIMEAnyType _ _ _ d _ => d
  | MIMEMultipart _ _ _ => []
  end.

(** maintype/subtype. *)
Definition content_type (m : mime) : string :=
  match m with
  | MIMEText st _ _ _ => "text/" +:+ st
  | MIMEAnyType mt st _ _ _ => mt +:+ "/" +:+ st
  | MIMEMultipart st _ _ => "multipart/" +:+ st
  end.

(** [Message.__setitem__] under the [compat32] policy, which every class of
    [email.mime] uses by default: the field is appended, and an existing
    field of the same name stays ("this does not overwrite an existing
    header with the same field name", says its docstring). *)
Definition setitem (k v : string) (m : mime) : mime :=
  match m with
  | MIMEText st cs t h => MIMEText st cs t (h ++ [(k, v)])
  | MIMEAnyType mt st n d h => MIMEAnyType mt st n d (h ++ [(k, v)])
  | MIMEMultipart st ps h => MIMEMultipart st ps (h ++ [(k, v)])
  end.

(** [Message.add_header] without parameters is [__setitem__]. *)
Definition add_header (k v : string) (m : mime) : mime := setitem k v m.

(** [Message.attach]; only ever called on a multipart here. *)
Definition attach (part : mime) (m : mime) : mime :=
  match m with
  | MIMEMultipart st ps h => MIMEMultipart st (ps ++ [part]) h
  | _ => m
  end.

(** [MIMEText(text, subtype)] with no charset given: us-ascii when the text
    is ASCII, utf-8 otherwise. *)
Definition MIMEText_init (_text _subtype : string) : mime :=
  MIMEText _subtype (if is_ascii _text then "us-ascii" else "utf-8") _text [].

(** ** Environment and world *)

Record http_response := {
  get_content_type : string;          (* response.info().get_content_type() *)
  get_filename : option string;       (* response.info().get_filename() *)
  read : list byte                    (* response.read() *)
}.

Inductive fetch :=
| FetchOk (response : http_response)
| FetchHTTPError (reason : string)
| FetchError (e : exn).

Inductive outcome (A : Type) :=
| Ok (a : A)
| Raise (e : exn).
Arguments Ok {A} a.
Arguments Raise {A} e.

Record Env := {
  (* email.utils.parseaddr, as documented: the pair of the real name and
     the address, ('', '') when the parse fails *)
  parseaddr : pyval → string * string;
  (* charsetUtf8.header_encode *)
  header_encode : string → string;
  (* str(obj) for an object that is not a str *)
  str_of : item → string;
  (* mimetypes.guess_type(name)[0] *)
  guess_type : string → option string;
  (* mimetypes.guess_extension *)
  guess_extension : string → option string;
  (* os.path.isfile *)
  isfile : string → bool;
  (* open(path, 'rb').read() *)
  read_file : string → outcome (list byte);
  (* urllib.request.urlopen(Request(url)) *)
  urlopen : string → fetch;
  (* posixpath.basename(urlparse(url).path) *)
  url_path_basename : string → string;
  (* smtplib.SMTP(host, port); smtplib.SMTP_SSL(host, port) when the flag
     is set *)
  smtp_connect : string → Z → bool → outcome unit;
  (* SMTP.starttls, SMTP.login and SMTP.quit on the connection of the Mailer
     for this host and port *)
  smtp_starttls : string → Z → outcome unit;
  smtp_login : string → string → outcome unit;
  smtp_quit : string → Z → outcome unit;
  (* smtplib.SMTP.sendmail: the refused recipients, or an SMTP error *)
  smtp_sendmail : string → list string → mime → outcome (list string)
}.

Inductive log_record :=
| WarnStrDeprecated (argname : string)
| WarnRecipientSkipped (argname : string) (n : item)
| WarnReplyToInvalid (from_addr : string).

Record world := {
  log : list log_record;
  outbox : list (string * list string * mime)
}.

Definition M (A : Type) : Type := world → outcome A * world.

Definition ret {A} (a : A) : M A := λ w, (Ok a, w).
Definition raise {A} (e : exn) : M A := λ w, (Raise e, w).
Definition bind {A B} (c : M A) (k : A → M B) : M B :=
  λ w, match c w with
       | (Ok a, w') => k a w'
       | (Raise e, w') => (Raise e, w')
       end.
Definition lift {A} (o : outcome A) : M A := λ w, (o, w).
Definition warning (r : log_record) : M unit :=
  λ w, (Ok tt, {| log := log w ++ [r]; outbox := outbox w |}).

#[export] Instance M_ret : MRet M := @ret.
#[export] Instance M_bind : MBind M := λ A B k c, bind c k.

(** A library call that takes a str receives [v].  The docstring of [send]
    types these entries as str; on a value of another type the call
    raises, modelled as TypeError. *)
Definition as_str (v : pyval) : M string :=
  match v with
  | PStr s => ret s
  | _ => raise TypeError
  end.

(** ** class Cipher *)

Inductive Cipher := PLAIN | SSL | START_TLS.

#[export] Instance Cipher_eq_dec : EqDecision Cipher.
Proof. solve_decision. Defined.

Definition from_port (port : Z) : Cipher :=
  if (port =? 587)%Z then START_TLS
  else if (port =? 2525)%Z then START_TLS
  else if (port =? 465)%Z then SSL
  else PLAIN.

(** ** class MailAddress *)

Record MailAddress := {
  _name : pyval;
  _address : option string      (* None or the str [parseaddr] returned *)
}.

Section WithEnv.
Context (E : Env).

(** [MailAddress.__init__], which runs [_extract]. *)
Definition _extract (o : item) : MailAddress :=
  match o with
  | IVal (PStr s) =>
      let '(name, address) := parseaddr E (PStr s) in
      {| _name := PStr name; _address := Some address |}
  | IDict o =>
      {| _name := py_or (get o "fullname") (py_or (get o "name") (get o "id"));
         _address :=
           Some (snd (parseaddr E
             (py_or (get o "mail")
                (py_or (get o "email")
                   (py_or (get o "e-mail") (get o "mailaddress")))))) |}
  | IVal _ => {| _name := PNone; _address := None |}
  end.

(** [bool(self._address)]. *)
Definition is_valid (ma : MailAddress) : bool :=
  match _address ma with
  | Some address => negb (String.eqb address "")
  | None => false
  end.

(** [MailAddress.__str__]; [header_encode] calls [encode] on the name, which
    only a str has. *)
Definition __str__ (ma : MailAddress) : outcome string :=
  match _address ma with
  | None => Ok ""
  | Some address =>
      if String.eqb address "" then Ok ""
      else if truthy (_name ma) then
        match _name ma with
        | PStr name => Ok (header_encode E name +:+ " <" +:+ address +:+ ">")
        | _ => Raise AttributeError
        end
      else Ok address
  end.

(** ** class Mailer *)

Record Mailer := {
  _host : string;
  _port : Z;
  _conn : bool;          (* whether [_conn] holds a connection *)
  _cipher : Cipher;
  _user : option string
}.

(** [Mailer.__init__]. *)
Definition Mailer_init (host : string) (port : Z) (cipher : option Cipher)
  : Mailer :=
  {| _host := host; _port := port; _conn := false;
     _cipher := default (from_port port) cipher; _user := None |}.

(** [Mailer.connect]: the Mailer it leaves, and its result.  [_conn] is
    assigned once the constructor returned, before [starttls] is called: a
    [starttls] that raises leaves the Mailer with the connection. *)
Definition connect (self : Mailer) : Mailer * outcome unit :=
  let connected :=
    {| _host := _host self; _port := _port self; _conn := true;
       _cipher := _cipher self; _user := _user self |} in
  if bool_decide (_cipher self = SSL) then
    match smtp_connect E (_host self) (_port self) true with
    | Ok _ => (connected, Ok tt)
    | Raise e => (self, Raise e)
    end
  else
    match smtp_connect E (_host self) (_port self) false with
    | Ok _ =>
        if bool_decide (_cipher self = START_TLS) then
          (connected, smtp_starttls E (_host self) (_port self))
        else (connected, Ok tt)
    | Raise e => (self, Raise e)
    end.

(** [Mailer.login]: the user is stored before the server is asked, so it
    stays stored when the server refuses. *)
Definition login (self : Mailer) (user password : string)
  : Mailer * outcome unit :=
  match (if _conn self then (self, Ok tt) else connect self) with
  | (self, Raise e) => (self, Raise e)
  | (self, Ok _) =>
      ({| _host := _host self; _port := _port self; _conn := _conn self;
          _cipher := _cipher self; _user := Some user |},
       smtp_login E user password)
  end.

(** [Mailer.quit]: [self._conn.quit()] comes first; when it raises, on a
    Mailer without connection or on a connection the server dropped,
    nothing is reset. *)
Definition quit (self : Mailer) : Mailer * outcome unit :=
  if _conn self then
    match smtp_quit E (_host self) (_port self) with
    | Ok _ =>
        ({| _host := _host self; _port := _port self; _conn := false;
            _cipher := _cipher self; _user := None |}, Ok tt)
    | Raise e => (self, Raise e)
    end
  else (self, Raise AttributeError).

(** The loop of [_convert_names]. *)
Fixpoint convert_loop (names : list item) (argname : string)
    (result : list string) : M (list string) :=
  match names with
  | [] => mret result
  | n :: names' =>
      let ma := _extract n in
      if negb (is_valid ma) then
        _ ← warning (WarnRecipientSkipped argname n);
        convert_loop names' argname result
      else
        s ← lift (__str__ ma);
        convert_loop names' argname (result ++ [s])
  end.

Definition _convert_names (names : arg) (argname : string)
  : M (option (list string)) :=
  names ← match names with
          | ArgOne (IVal (PStr s)) =>
              _ ← warning (WarnStrDeprecated argname);
              mret (ArgSeq [IVal (PStr s)])
          | _ => mret names
          end;
  match names with
  | ArgOne (IVal PNone) => mret None
  | ArgOne _ => raise (MailerException (NamesNotACollection argname))
  | ArgSeq l => result ← convert_loop l argname []; mret (Some result)
  end.

(** ** Mailer.send: content types *)

Definition default_type : string * string := ("application", "octet-stream").

(** [if t is not None and '/' in t: main, sub = t.split('/')], else the
    default.  The unpacking takes exactly two values. *)
Definition split_type (t : pyval) : M (string * string) :=
  match t with
  | PNone => mret default_type
  | PStr s =>
      if char_in "/" s then
        match split "/" s with
        | [maintype; subtype] => mret (maintype, subtype)
        | _ => raise ValueError
        end
      else mret default_type
  | _ => raise TypeError
  end.

(** The same with [t.split('/', 1)] (inline elements read from a file). *)
Definition split_type1 (t : pyval) : M (string * string) :=
  match t with
  | PNone => mret default_type
  | PStr s =>
      if char_in "/" s then
        match split1 "/" s with
        | [maintype; subtype] => mret (maintype, subtype)
        | _ => raise ValueError
        end
      else mret default_type
  | _ => raise TypeError
  end.

Definition opt_str (o : option string) : pyval :=
  match o with
  | Some s => PStr s
  | None => PNone
  end.

(** [mimetypes.guess_type(name)[0]]. *)
Definition guess (name : pyval) : M pyval :=
  s ← as_str name; mret (opt_str (guess_type E s)).

Definition dquote : string := String "034"%char "".

(** [part.add_header('Content-Disposition', f'attachment; filename="{name}"')]. *)
Definition attachment_disposition (name : string) (part : mime) : mime :=
  add_header "Content-Disposition"
    ("attachment; filename=" +:+ dquote +:+ name +:+ dquote) part.

(** ** Mailer.send: one attachment (the body of the loop over [attachments]) *)

(** The type of an attachment given by its data: the caller's, else guessed
    from the caller's name. *)
Definition data_attachment_type (attachment : dict) (attachment_name : pyval)
  : M pyval :=
  match attachment !! "type" with
  | Some t => mret t
  | None =>
      match attachment !! "name" with
      | Some _ => guess attachment_name
      | None => mret PNone
      end
  end.

(** [attachment.get('name', f"Unnamed attachment {i}.dat")]. *)
Definition data_attachment_name (i : nat) (attachment : dict) : pyval :=
  default (PStr ("Unnamed attachment " +:+ pretty i +:+ ".dat"))
    (attachment !! "name").

Definition attachment_from_data (i : nat) (attachment : dict)
    (attachment_data : pyval) : M mime :=
  let attachment_name := data_attachment_name i attachment in
  attachment_type ← data_attachment_type attachment attachment_name;
  '(attachment_maintype, attachment_subtype) ← split_type attachment_type;
  let attachment_data :=
    match attachment_data with
    | PStr s => PBytes (list_byte_of_string s)
    | _ => attachment_data
    end in
  match attachment_data with
  | PBytes b =>
      name ← as_str attachment_name;
      mret (attachment_disposition name
              (MIMEAnyType attachment_maintype attachment_subtype name b []))
  | _ => raise (MailerException (AttachmentDataWrongType i))
  end.

Definition attachment_from_file (i : nat) (attachment : dict)
    (attachment_file : pyval) : M mime :=
  attachment_file ← as_str attachment_file;
  if negb (isfile E attachment_file) then
    raise (MailerException (AttachmentFileMissing i attachment_file))
  else
    let attachment_type :=
      default (opt_str (guess_type E attachment_file)) (attachment !! "type") in
    '(attachment_maintype, attachment_subtype) ← split_type attachment_type;
    let attachment_name :=
      default (PStr (basename attachment_file)) (attachment !! "name") in
    content ← lift (read_file E attachment_file);
    name ← as_str attachment_name;
    mret (attachment_disposition name
            (MIMEAnyType attachment_maintype attachment_subtype name content [])).

(** The type of an attachment given by its url: the caller's, else the one
    the response declares. *)
Definition url_attachment_type (attachment : dict) (response : http_response)
  : pyval :=
  default (PStr (get_content_type response)) (attachment !! "type").

Definition attachment_from_url (i : nat) (attachment : dict) (url : pyval)
  : M mime :=
  url ← as_str url;
  match urlopen E url with
  | FetchHTTPError reason => raise (MailerException (DownloadFailed url reason))
  | FetchError e => raise e
  | FetchOk response =>
      let attachment_type := url_attachment_type attachment response in
      '(attachment_maintype, attachment_subtype) ← split_type attachment_type;
      let attachment_name :=
        default (opt_str (get_filename response)) (attachment !! "name") in
      let attachment_name :=
        match attachment_name with
        | PNone => PStr (url_path_basename E url)
        | _ => attachment_name
        end in
      let attachment_name :=
        if negb (truthy attachment_name) then
          PStr ("Unnamed attachment " +:+ pretty i +:+
                default ".dat"
                  (guess_extension E
                     (attachment_maintype +:+ "/" +:+ attachment_subtype)))
        else attachment_name in
      name ← as_str attachment_name;
      mret (attachment_disposition name
              (MIMEAnyType attachment_maintype attachment_subtype name
                 (read response) []))
  end.

Definition build_attachment (i : nat) (attachment : item) : M mime :=
  let attachment :=
    match attachment with
    | IVal (PStr s) => IDict {[ "file" := PStr s ]}
    | IVal (PBytes b) => IDict {[ "data" := PBytes b ]}
    | _ => attachment
    end in
  match attachment with
  | IVal _ => raise (MailerException (AttachmentWrongType i))
  | IDict attachment =>
      match attachment !! "data" with
      | Some attachment_data => attachment_from_data i attachment attachment_data
      | None =>
          match attachment !! "file" with
          | Some attachment_file =>
              attachment_from_file i attachment attachment_file
          | None =>
              match attachment !! "url" with
              | Some url => attachment_from_url i attachment url
              | None => raise (MailerException AttachmentNoSource)
              end
          end
      end
  end.

(** ** Mailer.send: one inline element (the body of the loop over [inlines]) *)

Definition inline_from_data (i : nat) (inline : dict) (i_name : string)
    (i_data : pyval) : M mime :=
  match i_data with
  | PBytes b =>
      let i_type := default (opt_str (guess_type E i_name)) (inline !! "type") in
      '(i_maintype, i_subtype) ← split_type i_type;
      mret (MIMEAnyType i_maintype i_subtype i_name b [])
  | _ => raise (MailerException (InlineDataNotBytes i))
  end.

Definition inline_from_file (i : nat) (inline : dict) (i_name : string)
    (i_file : pyval) : M mime :=
  i_file ← as_str i_file;
  if negb (isfile E i_file) then
    raise (MailerException (InlineFileMissing i i_file))
  else
    let i_type :=
      py_or (default (opt_str (guess_type E i_file)) (inline !! "type"))
        (opt_str (guess_type E i_name)) in
    '(i_maintype, i_subtype) ← split_type1 i_type;
    content ← lift (read_file E i_file);
    mret (MIMEAnyType i_maintype i_subtype i_name content []).

Definition inline_from_url (inline : dict) (i_name : string) (url : pyval)
  : M mime :=
  url ← as_str url;
  match urlopen E url with
  | FetchHTTPError reason => raise (MailerException (DownloadFailed url reason))
  | FetchError e => raise e
  | FetchOk response =>
      let i_type :=
        default (PStr (get_content_type response)) (inline !! "type") in
      '(i_maintype, i_subtype) ← split_type i_type;
      let req_name :=
        default (url_path_basename E url) (get_filename response) in
      let i_name := if negb (String.eqb req_name "") then req_name else i_name in
      mret (MIMEAnyType i_maintype i_subtype i_name (read response) [])
  end.

Definition build_inline (i : nat) (inline : item) : M mime :=
  match inline with
  | IVal (PStr s) =>
      (* 'cid' in a str is a substring test; a str has no item 'cid' *)
      if negb (str_in "cid" s) then raise (MailerException (InlineCidMissing i))
      else raise TypeError
  | IVal _ => raise TypeError
  | IDict inline =>
      match inline !! "cid" with
      | None => raise (MailerException (InlineCidMissing i))
      | Some (PStr i_cid) =>
          if negb (char_in "@" i_cid) then
            raise (MailerException InlineCidGrammar)
          else
            let i_name := hd "" (split "@" i_cid) in
            part ←
              match inline !! "data" with
              | Some i_data => inline_from_data i inline i_name i_data
              | None =>
                  match inline !! "file" with
                  | Some i_file => inline_from_file i inline i_name i_file
                  | None =>
                      match inline !! "url" with
                      | Some url => inline_from_url inline i_name url
                      | None => raise (MailerException InlineNoSource)
                      end
                  end
              end;
            let part := add_header "Content-ID" ("<" +:+ i_cid +:+ ">") part in
            let part := add_header "Content-Disposition" "inline" part in
            mret part
      | Some _ => raise TypeError              (* '@' in a value that is no str *)
      end
  end.

(** [for i, x in enumerate(xs): ...; parts.append(part)]. *)
Fixpoint build_parts (build : nat → item → M mime) (i : nat) (xs : list item)
    (parts : list mime) : M (list mime) :=
  match xs with
  | [] => mret parts
  | x :: xs' =>
      part ← build i x;
      build_parts build (S i) xs' (parts ++ [part])
  end.

(** [if xs: if not isinstance(xs, (list, tuple, set)): xs = [xs]]: the items
    the loop visits, none when [xs] is falsy. *)
Definition items_of (xs : arg) : list item :=
  match xs with
  | ArgSeq l => l
  | ArgOne x => if item_truthy x then [x] else []
  end.

(** ** Mailer.send *)

Record send_args := {
  to : arg;
  from_addr : item;
  subject : item;
  cc : arg;
  bcc : arg;
  reply_to : item;
  plaintext : item;
  html : item;
  attachments : arg;
  inlines : arg;
  header : list (string * string)   (* None and {} are [] *)
}.

(** What [send] holds when the checks of the parameters are done (up to the
    end of the loop over [inlines]). *)
Record prepared := {
  to' : option (list string);
  cc' : option (list string);
  bcc' : option (list string);
  from_addr' : string;
  reply_to' : option string;
  subject' : string;
  plaintext_part : option mime;
  html_part : option mime;
  attachment_parts : list mime;
  inline_parts : list mime
}.

(** [from_addr]: the login user when none is given. *)
Definition derive_from (self : Mailer) (from_addr : item) : M string :=
  match from_addr with
  | IVal PNone =>
      match _user self with
      | None => raise TypeError                (* '@' in None *)
      | Some user =>
          if negb (char_in "@" user) then mret (user +:+ "@" +:+ _host self)
          else mret user
      end
  | _ =>
      let from_mailaddress := _extract from_addr in
      if negb (is_valid from_mailaddress) then
        raise (MailerException FromNotDerivable)
      else lift (__str__ from_mailaddress)
  end.

Definition derive_reply_to (reply_to : item) (from_addr : string)
  : M (option string) :=
  match reply_to with
  | IVal PNone => mret None
  | _ =>
      let reply_to_mailaddress := _extract reply_to in
      if negb (is_valid reply_to_mailaddress) then
        _ ← warning (WarnReplyToInvalid from_addr); mret None
      else s ← lift (__str__ reply_to_mailaddress); mret (Some s)
  end.

(** [x if isinstance(x, str) else str(x)]. *)
Definition to_str (x : item) : string :=
  match x with
  | IVal (PStr s) => s
  | _ => str_of E x
  end.

(** [MIMEText(text, subtype)] when [text] is not None. *)
Definition text_part (text : item) (_subtype : string) : option mime :=
  match text with
  | IVal PNone => None
  | _ => Some (MIMEText_init (to_str text) _subtype)
  end.

Definition prepare (self : Mailer) (a : send_args) : M prepared :=
  to ← _convert_names (to a) "to";
  cc ← _convert_names (cc a) "cc";
  bcc ← _convert_names (bcc a) "bcc";
  from_addr ← derive_from self (from_addr a);
  reply_to ← derive_reply_to (reply_to a) from_addr;
  let subject :=
    match subject a with
    | IVal PNone => ""
    | s => to_str s
    end in
  let plaintext_part := text_part (plaintext a) "text" in
  let html_part := text_part (html a) "html" in
  attachment_parts ← build_parts build_attachment 0 (items_of (attachments a)) [];
  inline_parts ← build_parts build_inline 0 (items_of (inlines a)) [];
  mret {| to' := to; cc' := cc; bcc' := bcc; from_addr' := from_addr;
          reply_to' := reply_to; subject' := subject;
          plaintext_part := plaintext_part; html_part := html_part;
          attachment_parts := attachment_parts;
          inline_parts := inline_parts |}.

(** If both text and HTML are present, wrap them in multipart/alternative. *)
Definition compose_body (plaintext_part html_part : option mime) : option mime :=
  match html_part, plaintext_part with
  | Some html_part, Some plaintext_part =>
      let body := MIMEMultipart "alternative" [] [] in
      let body := attach plaintext_part body in
      let body := attach html_part body in
      Some body
  | Some html_part, None => Some html_part
  | None, Some plaintext_part => Some plaintext_part
  | None, None => None
  end.

(** [for part in parts: m.attach(part)]. *)
Definition attach_all (parts : list mime) (m : mime) : mime :=
  foldl (λ m part, attach part m) m parts.

(** If there are inline elements, package them together with the body in
    multipart/related. *)
Definition compose_content (body : option mime) (inline_parts : list mime)
  : M (option mime) :=
  match inline_parts with
  | _ :: _ =>
      match body with
      | None => raise (MailerException InlineWithoutBody)
      | Some body =>
          let content := MIMEMultipart "related" [] [] in
          let content := attach body content in
          mret (Some (attach_all inline_parts content))
      end
  | [] => mret body
  end.

(** If there are attachments, everything is wrapped in multipart/mixed. *)
Definition compose_message (content : option mime)
    (attachment_parts : list mime) : option mime :=
  match attachment_parts with
  | _ :: _ =>
      let message := MIMEMultipart "mixed" [] [] in
      let message :=
        match content with
        | Some content => attach content message
        | None => message
        end in
      Some (attach_all attachment_parts message)
  | [] => content
  end.

(** [if l: message[k] = ','.join(l); recipients.extend(l)]. *)
Definition set_recipients (k : string) (l : option (list string))
    (mr : mime * list string) : mime * list string :=
  match l with
  | None | Some [] => mr
  | Some l => (setitem k (join "," l) mr.1, mr.2 ++ l)
  end.

(** Assemble mail header: the message with its fields set, and the
    recipients. *)
Definition assemble_header (p : prepared) (header : list (string * string))
    (message : mime) : mime * list string :=
  let mr := set_recipients "To" (to' p) (message, []) in
  let mr := set_recipients "Cc" (cc' p) mr in
  let mr := set_recipients "Bcc" (bcc' p) mr in
  let message := mr.1 in
  let message :=
    match reply_to' p with
    | Some reply_to =>
        if negb (String.eqb reply_to "") then setitem "Reply-To" reply_to message
        else message
    | None => message
    end in
  let message := setitem "From" (from_addr' p) message in
  let message := setitem "Subject" (subject' p) message in
  let message :=
    foldl (λ message kv, setitem kv.1 kv.2 message) message header in
  (message, mr.2).

(** [self._conn.sendmail(from_addr, recipients, message.as_string())]. *)
Definition sendmail (self : Mailer) (from_addr : string)
    (recipients : list string) (message : mime) : M (list string) :=
  if _conn self then
    λ w, (smtp_sendmail E from_addr recipients message,
          {| log := log w;
             outbox := outbox w ++ [(from_addr, recipients, message)] |})
  else raise AttributeError.

(** The message tree: body, then content, then message. *)
Definition compose (p : prepared) : M (option mime) :=
  let body := compose_body (plaintext_part p) (html_part p) in
  content ← compose_content body (inline_parts p);
  mret (compose_message content (attachment_parts p)).

(** [send] from the composition of the body on. *)
Definition deliver (self : Mailer) (p : prepared)
    (header : list (string * string)) : M (list string) :=
  message ← compose p;
  match message with
  | None => raise (MailerException NothingToSend)
  | Some message =>
      let '(message, recipients) := assemble_header p header message in
      match recipients with
      | [] => raise (MailerException NoRecipientsDefined)
      | _ => sendmail self (from_addr' p) recipients message
      end
  end.

Definition send (self : Mailer) (a : send_args) : M (list string) :=
  p ← prepare self a;
  deliver self p (header a).

End WithEnv.

(** ** A concrete environment, for examples *)

Definition suffix_type (name : string) : option string :=
  match List.last (split "." name) "" with
  | "png" => Some "image/png"
  | "txt" => Some "text/plain"
  | "svg" => Some "image/svg+xml"
  | _ => None
  end.

Definition example_env : Env := {|
  parseaddr v :=
    match v with
    | PStr s => if char_in "@" s then ("", s) else ("", "")
    | _ => ("", "")
    end;
  header_encode s := "=?utf-8?q?" +:+ s +:+ "?=";
  str_of _ := "<object>";
  guess_type := suffix_type;
  guess_extension t := if String.eqb t "text/html" then Some ".html" else None;
  isfile p := String.eqb p "README.md";
  read_file p :=
    if String.eqb p "README.md" then Ok (list_byte_of_string "# utilities")
    else Raise (LibraryError "FileNotFoundError");
  urlopen u :=
    if String.eqb u "https://example.com/photo.png" then
      FetchOk {| get_content_type := "text/html"; get_filename := None;
                 read := list_byte_of_string "<html></html>" |}
    else FetchHTTPError "Not Found";
  url_path_basename u := basename u;
  smtp_connect _ _ _ := Ok tt;
  smtp_starttls _ _ := Ok tt;
  smtp_login _ _ := Ok tt;
  smtp_quit _ _ := Ok tt;
  smtp_sendmail _ _ _ := Ok []
|}.

Definition empty_world : world := {| log := []; outbox := [] |}.

Definition no_args : send_args := {|
  to := ArgOne (IVal PNone); from_addr := IVal PNone; subject := IVal PNone;
  cc := ArgOne (IVal PNone); bcc := ArgOne (IVal PNone);
  reply_to := IVal PNone; plaintext := IVal PNone; html := IVal PNone;
  attachments := ArgOne (IVal PNone); inlines := ArgOne (IVal PNone);
  header := []
|}.

Definition logged_in : Mailer :=
  (login example_env (Mailer_init "mail.example.com" 587 None)
     "test@example.com" "***").1.

(** ** What [_convert_names] keeps and what it logs *)

(** The serialised valid items of [names], in the order of [names]. *)
Definition kept (E : Env) (names : list item) : list string :=
  omap (λ n, let ma := _extract E n in
             if is_valid ma then
               match __str__ E ma with
               | Ok s => Some s
               | Raise _ => None
               end
             else None) names.

(** One warning for each invalid item of [names], in the order of [names]. *)
Definition skipped (E : Env) (argname : string) (names : list item)
  : list log_record :=
  WarnRecipientSkipped argname <$>
    List.filter (λ n, negb (is_valid (_extract E n))) names.

(** ** The recipients and the computed header fields *)

(** [recipients] as [send] extends it: To, then Cc, then Bcc. *)
Definition recipients (p : prepared) : list string :=
  default [] (to' p) ++ default [] (cc' p) ++ default [] (bcc' p).

Definition recipient_field (k : string) (l : option (list string))
  : list (string * string) :=
  match l with
  | None | Some [] => []
  | Some l => [(k, join "," l)]
  end.

(** The fields [send] computes, in the order it sets them. *)
Definition computed_headers (p : prepared) : list (string * string) :=
  recipient_field "To" (to' p) ++ recipient_field "Cc" (cc' p) ++
  recipient_field "Bcc" (bcc' p) ++
  match reply_to' p with
  | Some reply_to => if String.eqb reply_to "" then [] else [("Reply-To", reply_to)]
  | None => []
  end ++
  [("From", from_addr' p); ("Subject", subject' p)].


(** ** Statements of the specification that the code does not meet *)

(** Section 4.4: with no recipient left after resolution, [send] fails with
    NoRecipients whatever the headers and the body are, an empty body
    included. *)
Definition no_recipients_whatever_the_body : Prop :=
  ∀ (E : Env) (self : Mailer) (a : send_args) (w : world) p w',
    prepare E self a w = (Ok p, w') →
    recipients p = [] →
    ∃ w'', send E self a w =
             (Raise (MailerException NoRecipientsDefined), w'').

(** The names of the fields [send] computes. *)
Definition computed_names : list string :=
  ["To"; "Cc"; "Bcc"; "Reply-To"; "From"; "Subject"].

(** Sections 3 and 4.4: a caller-supplied header named like a computed one
    overwrites it, so the names of the fields of the message handed to the
    transport are unique and the caller's value is the one found. *)
Definition caller_headers_overwrite : Prop :=
  ∀ (E : Env) (self : Mailer) (a : send_args) (w : world) r w'
    from_addr rcpts message,
    send E self a w = (r, w') →
    outbox w' = outbox w ++ [(from_addr, rcpts, message)] →
    NoDup (headers_of message).*1
    ∧ ∀ k v v', k ∈ computed_names → (k, v) ∈ header a →
        (k, v') ∈ headers_of message → v' = v.

(** A mail with a subject and a caller-supplied Subject header. *)
Definition subject_twice : send_args := {|
  to := ArgSeq [IVal (PStr "a@example.com")]; from_addr := IVal PNone;
  subject := IVal (PStr "S");
  cc := ArgOne (IVal PNone); bcc := ArgOne (IVal PNone);
  reply_to := IVal PNone; plaintext := IVal (PStr "hi"); html := IVal PNone;
  attachments := ArgOne (IVal PNone); inlines := ArgOne (IVal PNone);
  header := [("Subject", "X")]
|}.

(** Section 4.2: for an attachment given by its url, with no type from
    the caller, the type guessed from the name comes before the type the
    response declares. *)
Definition remote_type_guessed_from_name_first : Prop :=
  ∀ (E : Env) (i : nat) (d : dict) url name t (w : world) part w',
    d !! "data" = None → d !! "file" = None →
    d !! "url" = Some (PStr url) → d !! "type" = None →
    d !! "name" = Some (PStr name) → guess_type E name = Some t →
    build_attachment E i (IDict d) w = (Ok part, w') →
    content_type part = t.

(** An attachment fetched from a url, named by the caller. *)
Definition named_remote_attachment : dict :=
  {[ "url" := PStr "https://example.com/photo.png";
     "name" := PStr "photo.png" ]}.

(** [E] with another [mimetypes.guess_type]. *)
Definition with_guess_type (E : Env) (g : string → option string) : Env :=
  {| parseaddr := parseaddr E; header_encode := header_encode E;
     str_of := str_of E; guess_type := g;
     guess_extension := guess_extension E; isfile := isfile E;
     read_file := read_file E; urlopen := urlopen E;
     url_path_basename := url_path_basename E;
     smtp_connect := smtp_connect E; smtp_starttls := smtp_starttls E;
     smtp_login := smtp_login E; smtp_quit := smtp_quit E;
     smtp_sendmail := smtp_sendmail E |}.

(** Section 4.2, for inline elements: a payload given as text is encoded
    to UTF-8 and the element is built. *)
Definition inline_text_payload_accepted : Prop :=
  ∀ (E : Env) (i : nat) (d : dict) cid s (w : world),
    d !! "cid" = Some (PStr cid) → char_in "@" cid = true →
    d !! "data" = Some (PStr s) →
    ∃ part w', build_inline E i (IDict d) w = (Ok part, w')
               ∧ payload_of part = list_byte_of_string s.

(** An inline element whose data is text. *)
Definition text_inline : dict :=
  {[ "cid" := PStr "note@example.com"; "data" := PStr "hello" ]}.

(** ** Concrete calls *)

(** What [send] holds for [no_args] on [logged_in]. *)
Definition nothing_prepared : prepared := {|
  to' := None; cc' := None; bcc' := None;
  from_addr' := "test@example.com"; reply_to' := None; subject' := "";
  plaintext_part := None; html_part := None;
  attachment_parts := []; inline_parts := []
|}.

(** The message [send] hands over for [subject_twice]. *)
Definition subject_twice_message : mime :=
  MIMEText "text" "us-ascii" "hi"
    [("To", "a@example.com"); ("From", "test@example.com");
     ("Subject", "S"); ("Subject", "X")].

(** The part built for [named_remote_attachment]. *)
Definition named_remote_part : mime :=
  attachment_disposition "photo.png"
    (MIMEAnyType "text" "html" "photo.png"
       (list_byte_of_string "<html></html>") []).

(** The same attachment with a type from the caller. *)
Definition typed_remote_attachment : dict :=
  {[ "url" := PStr "https://example.com/photo.png";
     "name" := PStr "photo.png"; "type" := PStr "image/png" ]}.

Definition typed_remote_part : mime :=
  attachment_disposition "photo.png"
    (MIMEAnyType "image" "png" "photo.png"
       (list_byte_of_string "<html></html>") []).

(** Plain text and html, one recipient. *)
Definition both_texts : send_args := {|
  to := ArgSeq [IVal (PStr "a@example.com")]; from_addr := IVal PNone;
  subject := IVal PNone;
  cc := ArgOne (IVal PNone); bcc := ArgOne (IVal PNone);
  reply_to := IVal PNone;
  plaintext := IVal (PStr "hi"); html := IVal (PStr "<b>hi</b>");
  attachments := ArgOne (IVal PNone); inlines := ArgOne (IVal PNone);
  header := []
|}.



(** The inline element of the test at the end of the module, read from a
    file. *)
Definition logo_inline : dict :=
  {[ "cid" := PStr "logo@cloudflare.com"; "file" := PStr "README.md" ]}.

Definition logo_part : mime :=
  MIMEAnyType "application" "octet-stream" "logo"
    (list_byte_of_string "# utilities")
    [("Content-ID", "<logo@cloudflare.com>");
     ("Content-Disposition", "inline")].






(** Text and no recipient. *)
Definition text_to_nobody : send_args := {|
  to := ArgSeq []; from_addr := IVal PNone; subject := IVal PNone;
  cc := ArgOne (IVal PNone); bcc := ArgSeq [IVal (PStr "not an address")];
  reply_to := IVal PNone; plaintext := IVal (PStr "hi"); html := IVal PNone;
  attachments := ArgOne (IVal PNone); inlines := ArgOne (IVal PNone);
  header := []
|}.

Definition text_to_nobody_prepared : prepared := {|
  to' := Some []; cc' := None; bcc' := Some [];
  from_addr' := "test@example.com"; reply_to' := None; subject' := "";
  plaintext_part := Some (MIMEText "text" "us-ascii" "hi" []);
  html_part := None; attachment_parts := []; inline_parts := []
|}.

Definition text_to_nobody_world : world :=
  {| log := [WarnRecipientSkipped "bcc" (IVal (PStr "not an address"))];
     outbox := [] |}.

(** Recipients of several shapes, two of them valid. *)
Definition mixed_names : list item :=
  [IVal (PStr "a@example.com"); IVal (PStr "not an address");
   IDict {[ "name" := PStr "Bob"; "mail" := PStr "bob@example.com" ]};
   IVal (PInt 3);
   IDict {[ "name" := PStr "Nobody" ]}].

(** A Mailer on which [login] was never called. *)
Definition fresh_mailer : Mailer := Mailer_init "mail.example.com" 587 None.

(** A computation is [quiet] when it hands nothing to the transport. *)
Definition quiet {A} (c : M A) : Prop :=
  ∀ w r w', c w = (r, w') → outbox w' = outbox w.

(** * Further definitions

    What the statements beyond the ones above need. *)

(** The items [_convert_names] goes through: those of a collection, the
    one str given alone, none for None. *)
Definition names_of (names : arg) : list item :=
  match names with
  | ArgSeq l => l
  | ArgOne (IVal (PStr s)) => [IVal (PStr s)]
  | ArgOne _ => []
  end.

(** The Name parameter of a part built by [MIMEAnyType]. *)
Definition name_of (m : mime) : string :=
  match m with
  | MIMEAnyType _ _ name _ _ => name
  | _ => ""
  end.

(** A computation is [silent] when it leaves the world as it is: it logs
    nothing and hands nothing over. *)
Definition silent {A} (c : M A) : Prop :=
  ∀ w r w', c w = (r, w') → w' = w.

(** A computation [appends] when it only adds records to the log. *)
Definition appends {A} (c : M A) : Prop :=
  ∀ w r w', c w = (r, w') → ∃ l, log w' = log w ++ l.

(** ** More concrete calls *)

(** To, Cc and Bcc with an address twice and an invalid one, an invalid
    reply_to, text and two attachments. *)
Definition three_fields : send_args := {|
  to := ArgSeq [IVal (PStr "a@example.com"); IVal (PStr "not an address")];
  from_addr := IVal PNone; subject := IVal (PStr "News");
  cc := ArgSeq [IVal (PStr "a@example.com")];
  bcc := ArgSeq [IVal (PStr "b@example.com")];
  reply_to := IVal (PStr "nobody"); plaintext := IVal (PStr "hi");
  html := IVal PNone;
  attachments := ArgSeq [IVal (PBytes []); IVal (PStr "README.md")];
  inlines := ArgOne (IVal PNone);
  header := []
|}.

Definition three_fields_prepared : prepared := {|
  to' := Some ["a@example.com"]; cc' := Some ["a@example.com"];
  bcc' := Some ["b@example.com"];
  from_addr' := "test@example.com"; reply_to' := None; subject' := "News";
  plaintext_part := Some (MIMEText "text" "us-ascii" "hi" []);
  html_part := None;
  attachment_parts :=
    [attachment_disposition "Unnamed attachment 0.dat"
       (MIMEAnyType "application" "octet-stream" "Unnamed attachment 0.dat"
          [] []);
     attachment_disposition "README.md"
       (MIMEAnyType "application" "octet-stream" "README.md"
          (list_byte_of_string "# utilities") [])];
  inline_parts := []
|}.

Definition three_fields_log : list log_record :=
  [WarnRecipientSkipped "to" (IVal (PStr "not an address"));
   WarnReplyToInvalid "test@example.com"].

Definition three_fields_message : mime :=
  MIMEMultipart "mixed"
    (MIMEText "text" "us-ascii" "hi" [] :: attachment_parts three_fields_prepared)
    [("To", "a@example.com"); ("Cc", "a@example.com");
     ("Bcc", "b@example.com"); ("From", "test@example.com");
     ("Subject", "News")].

Definition three_fields_world : world :=
  {| log := three_fields_log;
     outbox := [("test@example.com",
                 ["a@example.com"; "a@example.com"; "b@example.com"],
                 three_fields_message)] |}.

(** A sender and a reply_to given, one path as [attachments]. *)
Definition one_path : send_args := {|
  to := ArgSeq [IVal (PStr "a@example.com")];
  from_addr := IVal (PStr "me@example.com"); subject := IVal PNone;
  cc := ArgOne (IVal PNone); bcc := ArgOne (IVal PNone);
  reply_to := IVal (PStr "desk@example.com"); plaintext := IVal PNone;
  html := IVal PNone;
  attachments := ArgOne (IVal (PStr "README.md"));
  inlines := ArgOne (IVal PNone);
  header := []
|}.

Definition readme_part : mime :=
  attachment_disposition "README.md"
    (MIMEAnyType "application" "octet-stream" "README.md"
       (list_byte_of_string "# utilities") []).

Definition one_path_prepared : prepared := {|
  to' := Some ["a@example.com"]; cc' := None; bcc' := None;
  from_addr' := "me@example.com"; reply_to' := Some "desk@example.com";
  subject' := "";
  plaintext_part := None; html_part := None;
  attachment_parts := [readme_part]; inline_parts := []
|}.

(** The message [send] hands over for [one_path] after a login. *)
Definition one_path_message : mime :=
  MIMEMultipart "mixed" [readme_part]
    [("To", "a@example.com"); ("Reply-To", "desk@example.com");
     ("From", "me@example.com"); ("Subject", "")].

(** A url that answers 404. *)
Definition missing_remote : dict :=
  {[ "url" := PStr "https://example.com/missing";
     "cid" := PStr "gone@example.com" ]}.

(** * libreoffice.py: conversion through unoconv

    The module is Python 2: [str] is a byte string, modelled as [string].
    The file system is a finite map from names to contents; [psutil],
    [tempfile] and [subprocess] are the environment. *)

Module LibreOffice.

Inductive exn :=
| NameError (name : string)        (* global name is not defined *)
| RuntimeError
| OSError (path : string)          (* os.unlink of a missing file *)
| IOError (path : string)          (* open of a missing file *)
| OutOfFuel.                       (* the loop model ran out of fuel *)

Inductive outcome (A : Type) :=
| Ok (a : A)
| Raise (e : exn).
Arguments Ok {A} a.
Arguments Raise {A} e.

(** An entry of [psutil.net_connections()]. *)
Record connection := {
  laddr_port : N;
  status : string
}.

Abbreviation fs := (gmap string (list byte)).

Record Env := {
  net_connections : list connection;
  (* the name tempfile.NamedTemporaryFile picks, given suffix and prefix *)
  temp_name : string → string → fs → string;
  (* os.path.dirname(os.path.realpath(__file__)) *)
  script_dir : string;
  (* tempfile.gettempdir() *)
  gettempdir : string;
  (* subprocess.call(args): the exit status, or the error of a program that
     cannot be started, and the files it leaves *)
  subprocess_call : list string → fs → outcome Z * fs
}.

Record world := {
  files : fs;
  stdout : list (list string);     (* what print wrote *)
  calls : list (list string)       (* the subprocesses started *)
}.

Definition F (A : Type) : Type := world → outcome A * world.

Definition ret {A} (a : A) : F A := λ w, (Ok a, w).
Definition raise {A} (e : exn) : F A := λ w, (Raise e, w).
Definition bind {A B} (c : F A) (k : A → F B) : F B :=
  λ w, match c w with
       | (Ok a, w') => k a w'
       | (Raise e, w') => (Raise e, w')
       end.

#[export] Instance F_ret : MRet F := @ret.
#[export] Instance F_bind : MBind F := λ A B k c, bind c k.

Definition set_files (f : fs → fs) : F unit :=
  λ w, (Ok tt, {| files := f (files w); stdout := stdout w; calls := calls w |}).

(** What can be given as [input]. *)
Inductive input :=
| InFile (content : list byte)     (* has read and seek: StringIO, file *)
| InStr (s : string)               (* str *)
| InOther.

Section WithEnv.
Context (E : Env).

(** [set([e.laddr.port for e in psutil.net_connections()
         if e.status == 'LISTEN'])]. *)
Definition listener : gset N :=
  list_to_set
    (laddr_port <$>
       List.filter (λ e, String.eqb (status e) "LISTEN") (net_connections E)).

(** [while freePort in listener: freePort += 1], for [fuel] rounds. *)
Fixpoint free_port_loop (fuel : nat) (freePort : N) : option N :=
  match fuel with
  | 0 => None
  | S fuel =>
      if bool_decide (freePort ∈ listener)
      then free_port_loop fuel (freePort + 1)%N
      else Some freePort
  end.

(** [__getFreePort]: the loop ends within [size listener + 1] rounds. *)
Definition __getFreePort (start : N) : option N :=
  free_port_loop (S (size listener)) start.

(** [tempfile.NamedTemporaryFile(mode, suffix, prefix, delete = False)]: the
    file is created empty. *)
Definition NamedTemporaryFile (suffix prefix : string) : F string :=
  λ w, let name := temp_name E suffix prefix (files w) in
       (Ok name, {| files := <[name := []]> (files w);
                    stdout := stdout w; calls := calls w |}).

(** [makeTmpFile].  What is written through [tmpFile] is in the file when
    the function returns: the handle is closed, or dropped. *)
Definition makeTmpFile (input : input) (suffix prefix : string) : F string :=
  tmpfileName ← NamedTemporaryFile suffix prefix;
  _ ← match input with
      | InFile content => set_files <[tmpfileName := content]>
      | InStr s =>
          λ w,
            if negb (char_in "000" s) && bool_decide (is_Some (files w !! s))
            then raise (NameError "openfile") w
            else set_files <[tmpfileName := list_byte_of_string s]> w
      | InOther => raise (NameError "obj")
      end;
  mret tmpfileName.

(** [os.path.join(a, b)] for a relative [b]. *)
Definition path_join (a b : string) : string :=
  match List.last (list_ascii_of_string a) "/"%char with
  | "/"%char => a +:+ b
  | _ => a +:+ "/" +:+ b
  end.

Definition __getUnoConvArgs (format inputFileName outputFileName : string)
  : F (list string) :=
  match __getFreePort 10000 with
  | None => raise OutOfFuel
  | Some freePort =>
      mret [path_join (script_dir E) "unoconv";
            "--port"; pretty freePort;
            "-f"; format;
            "-u"; "file://" +:+ gettempdir E +:+ "/libreoffice_port"
                  +:+ pretty freePort;
            "-o"; outputFileName; inputFileName]
  end.

(** [os.unlink]. *)
Definition unlink (name : string) : F unit :=
  λ w, match files w !! name with
       | Some _ => set_files (delete name) w
       | None => raise (OSError name) w
       end.

(** [open(name, 'rb').read()]. *)
Definition read_all (name : string) : F (list byte) :=
  λ w, match files w !! name with
       | Some content => ret content w
       | None => raise (IOError name) w
       end.

Definition print (line : list string) : F unit :=
  λ w, (Ok tt, {| files := files w; stdout := stdout w ++ [line];
                  calls := calls w |}).

Definition call (args : list string) : F Z :=
  λ w, let '(status, files') := subprocess_call E args (files w) in
       (status, {| files := files'; stdout := stdout w;
                   calls := calls w ++ [args] |}).

Definition __genericConverter (input : input)
    (targetFormat inputExtension outputExtension : string) : F (list byte) :=
  inputFileName ← makeTmpFile input ("." +:+ inputExtension) "";
  outputFileName ← NamedTemporaryFile ("." +:+ outputExtension) "tmp";
  unoArgs ← __getUnoConvArgs targetFormat inputFileName outputFileName;
  _ ← print unoArgs;
  status ← call unoArgs;
  if negb (status =? 0)%Z then
    _ ← unlink inputFileName;
    raise RuntimeError
  else
    result ← read_all outputFileName;
    _ ← unlink outputFileName;
    _ ← unlink inputFileName;
    mret result.

Definition odt2pdf (input : input) : F (list byte) :=
  __genericConverter input "pdf" "odt" "pdf".

End WithEnv.

End LibreOffice.

(** ** A concrete machine for libreoffice.py *)

(** Two listeners from port 10000 on, a connection that does not listen, and
    an [unoconv] that writes its output file when its input exists. *)
Definition example_office : LibreOffice.Env := {|
  LibreOffice.net_connections :=
    [ {| LibreOffice.laddr_port := 22; LibreOffice.status := "LISTEN" |};
      {| LibreOffice.laddr_port := 10000; LibreOffice.status := "LISTEN" |};
      {| LibreOffice.laddr_port := 10001; LibreOffice.status := "LISTEN" |};
      {| LibreOffice.laddr_port := 10002;
         LibreOffice.status := "ESTABLISHED" |} ];
  LibreOffice.temp_name := λ suffix prefix files,
    "/tmp/" +:+ prefix +:+ pretty (size files) +:+ suffix;
  LibreOffice.script_dir := "/opt/tools";
  LibreOffice.gettempdir := "/tmp";
  LibreOffice.subprocess_call := λ args files,
    match args with
    | [_; _; _; _; _; _; _; _; out; inp] =>
        match files !! inp with
        | Some content =>
            (LibreOffice.Ok 0%Z,
             <[out := list_byte_of_string "%PDF-" ++ content]> files)
        | None => (LibreOffice.Ok 1%Z, files)
        end
    | _ => (LibreOffice.Ok 2%Z, files)
    end
|}.

Definition office_start : LibreOffice.world :=
  {| LibreOffice.files := ∅; LibreOffice.stdout := [];
     LibreOffice.calls := [] |}.

Definition example_unoconv_args : list string :=
  ["/opt/tools/unoconv"; "--port"; "10002"; "-f"; "pdf";
   "-u"; "file:///tmp/libreoffice_port10002";
   "-o"; "/tmp/tmp1.pdf"; "/tmp/0.odt"].

(** * mailer.py: [Mailer.from_env_vars] *)

(** The process: [os.environ], [socket.gethostname()], and [int] on a str
    ([None] when it raises ValueError). *)
Record Process := {
  environ : gmap string string;
  gethostname : string;
  int : string → option Z
}.

(** The MailerException messages of [from_env_vars]. *)
Inductive env_error :=
| EnvHostMissing                       (* Environment variable missing *)
| EnvPortNotInteger (port : string)
| EnvUnknownCipher (cipher : string)
| EnvConnectFailed
| EnvHeloFailed
| EnvAuthenticationFailed
| EnvAuthNotSupported
| EnvNoAuthMethod.

Inductive env_exn :=
| EnvMailerException (e : env_error)
| KeyError (key : string)
| Uncaught (e : exn).                   (* no except clause matches *)

Inductive env_result :=
| Built (mailer : Mailer)
| Failed (e : env_exn).

(** [Cipher[name]]. *)
Definition Cipher_of_name (name : string) : option Cipher :=
  if String.eqb name "PLAIN" then Some PLAIN
  else if String.eqb name "SSL" then Some SSL
  else if String.eqb name "START_TLS" then Some START_TLS
  else None.

(** The classes of smtplib below SMTPException, by name: a [LibraryError]
    carries the name of its class. *)
Definition smtp_exceptions : list string :=
  ["SMTPException"; "SMTPNotSupportedError"; "SMTPServerDisconnected";
   "SMTPResponseException"; "SMTPSenderRefused"; "SMTPRecipientsRefused";
   "SMTPDataError"; "SMTPConnectError"; "SMTPHeloError";
   "SMTPAuthenticationError"].

(** The except clause around [mailer.connect()]. *)
Definition connect_handler (e : exn) : env_exn :=
  match e with
  | LibraryError "SMTPConnectError" => EnvMailerException EnvConnectFailed
  | _ => Uncaught e
  end.

(** The except clauses around [mailer.login(...)], in their order. *)
Definition login_handler (e : exn) : env_exn :=
  match e with
  | LibraryError what =>
      if String.eqb what "SMTPHeloError" then
        EnvMailerException EnvHeloFailed
      else if String.eqb what "SMTPAuthenticationError" then
        EnvMailerException EnvAuthenticationFailed
      else if String.eqb what "SMTPNotSupportedError" then
        EnvMailerException EnvAuthNotSupported
      else if bool_decide (what ∈ smtp_exceptions) then
        EnvMailerException EnvNoAuthMethod
      else Uncaught e
  | _ => Uncaught e
  end.

Section FromEnvVars.
Context (E : Env) (P : Process).

(** [port = os.environ.get('SMTP_PORT', None)] and what follows. *)
Definition env_port : env_exn + Z :=
  match environ P !! "SMTP_PORT" with
  | None | Some "" => inr 25%Z
  | Some port =>
      match int P port with
      | Some n => inr n
      | None => inl (EnvMailerException (EnvPortNotInteger port))
      end
  end.

(** [cipher = os.environ.get('SMTP_CIPHER', None)] and what follows. *)
Definition env_cipher (port : Z) : env_exn + Cipher :=
  match environ P !! "SMTP_CIPHER" with
  | None | Some "" => inr (from_port port)
  | Some cipher =>
      match Cipher_of_name cipher with
      | Some c => inr c
      | None => inl (EnvMailerException (EnvUnknownCipher cipher))
      end
  end.

(** The login of [from_env_vars]. *)
Definition env_login (mailer : Mailer) : env_result :=
  match environ P !! "SMTP_USER", environ P !! "SMTP_PASSWORD" with
  | Some user, Some password =>
      match login E mailer user password with
      | (mailer, Ok _) => Built mailer
      | (_, Raise e) => Failed (login_handler e)
      end
  | _, _ => Built mailer
  end.

Definition from_env_vars : env_result :=
  let host := default (gethostname P) (environ P !! "SMTP_HOST") in
  if String.eqb host "" then Failed (EnvMailerException EnvHostMissing)
  else
    match env_port with
    | inl e => Failed e
    | inr port =>
        match env_cipher port with
        | inl e => Failed e
        | inr cipher =>
            match environ P !! "SMTP_HOST" with
            | None => Failed (KeyError "SMTP_HOST")
            | Some host =>
                match connect E (Mailer_init host port (Some cipher)) with
                | (_, Raise e) => Failed (connect_handler e)
                | (mailer, Ok _) => env_login mailer
                end
            end
        end
    end.

End FromEnvVars.

(** A process with no SMTP variable at all, and one with all of them. *)
Definition bare_process : Process :=
  {| environ := ∅; gethostname := "build-host"; int := λ _, None |}.

Definition full_process : Process :=
  {| environ := {[ "SMTP_HOST" := "mail.example.com";
                   "SMTP_PORT" := "587";
                   "SMTP_USER" := "postmaster@example.com";
                   "SMTP_PASSWORD" := "secret" ]};
     gethostname := "build-host";
     int := λ s, if String.eqb s "587" then Some 587%Z else None |}.

Definition logged_in_from_env : Mailer :=
  {| _host := "mail.example.com"; _port := 587; _conn := true;
     _cipher := START_TLS; _user := Some "postmaster@example.com" |}.

(** ** Reasoning about [M] *)

Section Monad.
Context {A B : Type}.
Implicit Types (c : M A) (k : A → M B) (w : world).

Lemma bind_Ok c k w a w' : c w = (Ok a, w') → (c ≫= k) w = k a w'.
Proof. intros H. unfold mbind, M_bind, bind. by rewrite H. Qed.

Lemma bind_Raise c k w e w' : c w = (Raise e, w') → (c ≫= k) w = (Raise e, w').
Proof. intros H. unfold mbind, M_bind, bind. by rewrite H. Qed.

Lemma bind_Ok_inv c k w b w'' :
  (c ≫= k) w = (Ok b, w'') → ∃ a w', c w = (Ok a, w') ∧ k a w' = (Ok b, w'').
Proof.
  unfold mbind, M_bind, bind. destruct (c w) as [[a|e] w'] eqn:Hc; [eauto | done].
Qed.

Lemma bind_cases c k w :
  (∃ a w', c w = (Ok a, w') ∧ (c ≫= k) w = k a w')
  ∨ (∃ e w', c w = (Raise e, w') ∧ (c ≫= k) w = (Raise e, w')).
Proof.
  unfold mbind, M_bind, bind. destruct (c w) as [[a|e] w'] eqn:Hc; eauto.
Qed.
End Monad.

(** [quiet] is kept by every operation of [M] but the hand-off. *)
Lemma quiet_ret {A} (a : A) : quiet (mret a).
Proof. intros w r w' [= _ <-]. done. Qed.

Lemma quiet_raise {A} e : quiet (@raise A e).
Proof. intros w r w' [= _ <-]. done. Qed.

Lemma quiet_lift {A} (o : outcome A) : quiet (lift o).
Proof. intros w r w' [= _ <-]. done. Qed.

Lemma quiet_warning r : quiet (warning r).
Proof. intros w r' w' [= _ <-]. done. Qed.

Lemma quiet_bind {A B} (c : M A) (k : A → M B) :
  quiet c → (∀ a, quiet (k a)) → quiet (c ≫= k).
Proof.
  intros Hc Hk w r w'. unfold mbind, M_bind, bind.
  destruct (c w) as [[a|e] w1] eqn:E1.
  - intros E2. rewrite (Hk _ _ _ _ E2). eauto.
  - intros [= _ <-]. eauto.
Qed.

Create HintDb quiet.
#[export] Hint Resolve quiet_ret quiet_raise quiet_lift quiet_warning : quiet.

Ltac quiet :=
  repeat first
    [ progress eauto with quiet
    | apply quiet_bind; [| intros ?]
    | match goal with
      | |- quiet (match ?x with _ => _ end) => destruct x
      | |- quiet (if ?x then _ else _) => destruct x
      | |- quiet (let '(_, _) := ?x in _) => destruct x
      end ].

(** ** Nothing before the hand-off touches the transport *)

Section Quiet.
Context (E : Env).

Lemma quiet_convert_loop names argname result :
  quiet (convert_loop E names argname result).
Proof. revert result. induction names as [|n names IH]; intros; simpl; quiet. Qed.
Hint Resolve quiet_convert_loop : quiet.

Lemma quiet_convert_names names argname : quiet (_convert_names E names argname).
Proof. unfold _convert_names. quiet. Qed.

Lemma quiet_as_str v : quiet (as_str v).
Proof. unfold as_str. quiet. Qed.

Lemma quiet_split_type t : quiet (split_type t).
Proof. unfold split_type. quiet. Qed.

Lemma quiet_split_type1 t : quiet (split_type1 t).
Proof. unfold split_type1. quiet. Qed.

Hint Resolve quiet_as_str quiet_split_type quiet_split_type1 : quiet.

Lemma quiet_build_attachment i x : quiet (build_attachment E i x).
Proof.
  unfold build_attachment, attachment_from_data, attachment_from_file,
    attachment_from_url, data_attachment_type, guess.
  quiet.
Qed.

Lemma quiet_build_inline i x : quiet (build_inline E i x).
Proof.
  unfold build_inline, inline_from_data, inline_from_file, inline_from_url.
  quiet.
Qed.

Lemma quiet_build_parts build i xs parts :
  (∀ i x, quiet (build i x)) → quiet (build_parts build i xs parts).
Proof.
  intros Hb. revert i parts.
  induction xs as [|x xs IH]; intros; simpl; quiet; auto.
Qed.

Lemma quiet_derive_from self x : quiet (derive_from E self x).
Proof. unfold derive_from. quiet. Qed.

Lemma quiet_derive_reply_to x f : quiet (derive_reply_to E x f).
Proof. unfold derive_reply_to. quiet. Qed.

Hint Resolve quiet_convert_names quiet_derive_from quiet_derive_reply_to
  quiet_build_parts quiet_build_attachment quiet_build_inline : quiet.

Lemma quiet_prepare self a : quiet (prepare E self a).
Proof. unfold prepare. quiet. Qed.

Lemma quiet_compose p : quiet (compose p).
Proof. unfold compose, compose_content. quiet. Qed.

End Quiet.

(** ** Recipients: [_convert_names] *)

Section ConvertNames.
Context (E : Env).

Lemma convert_loop_spec argname names : ∀ result w,
  Forall (λ n, is_valid (_extract E n) = true →
               ∃ s, __str__ E (_extract E n) = Ok s) names →
  convert_loop E names argname result w =
    (Ok (result ++ kept E names),
     {| log := log w ++ skipped E argname names; outbox := outbox w |}).
Proof.
  induction names as [|n names IH]; intros result w Hs; simpl.
  - unfold skipped; simpl. rewrite !app_nil_r. by destruct w.
  - inversion_clear Hs as [|? ? Hn Hrest].
    unfold kept, skipped; simpl. fold (kept E names).
    destruct (is_valid (_extract E n)) eqn:Hv; simpl.
    + destruct (Hn eq_refl) as [s Hstr]. rewrite Hstr.
      erewrite bind_Ok by (unfold lift; reflexivity).
      rewrite IH by done. by rewrite <- app_assoc.
    + erewrite bind_Ok by (unfold warning; reflexivity).
      rewrite IH by done. simpl. unfold skipped. by rewrite <- app_assoc.
Qed.

(** The loop fails only while serialising a valid item. *)
Lemma convert_loop_Raise argname names : ∀ result w e w',
  convert_loop E names argname result w = (Raise e, w') →
  ∃ n, n ∈ names ∧ is_valid (_extract E n) = true
       ∧ __str__ E (_extract E n) = Raise e.
Proof.
  induction names as [|n names IH]; intros result w e w'; simpl; [done|].
  destruct (is_valid (_extract E n)) eqn:Hv; simpl.
  - destruct (__str__ E (_extract E n)) as [s|e0] eqn:Hstr.
    + erewrite bind_Ok by (unfold lift; reflexivity).
      intros H. apply IH in H as (n' & Hin & Hv' & Hs').
      exists n'. split_and!; [by right|done..].
    + erewrite bind_Raise by (unfold lift; reflexivity).
      intros [= <- _]. exists n. split_and!; [by left|done..].
  - erewrite bind_Ok by (unfold warning; reflexivity).
    intros H. apply IH in H as (n' & Hin & Hv' & Hs').
    exists n'. split_and!; [by right|done..].
Qed.

End ConvertNames.

(** C7. Given a collection as [to], [cc] or [bcc], [_convert_names] logs
    and skips each invalid item and goes on with the rest: when it fails,
    it fails on a valid item (one whose display name is not a str, on
    which [str()] raises), never on an invalid one; otherwise it returns
    the serialised valid items in their order and has logged one warning
    for each invalid item. *)
Theorem convert_names_skips_invalid (E : Env) (argname : string)
    (names : list item) (w : world) :
  (∀ e w', _convert_names E (ArgSeq names) argname w = (Raise e, w') →
     ∃ n, n ∈ names ∧ is_valid (_extract E n) = true
          ∧ __str__ E (_extract E n) = Raise e)
  ∧ (Forall (λ n, is_valid (_extract E n) = true →
                  ∃ s, __str__ E (_extract E n) = Ok s) names →
     _convert_names E (ArgSeq names) argname w =
       (Ok (Some (kept E names)),
        {| log := log w ++ skipped E argname names; outbox := outbox w |})).
Proof.
  split.
  - intros e w'. unfold _convert_names.
    erewrite bind_Ok by reflexivity. cbn beta iota.
    destruct (convert_loop E names argname [] w) as [[r|e0] w1] eqn:Hloop.
    + by erewrite bind_Ok by exact Hloop.
    + erewrite bind_Raise by exact Hloop. intros [= <- _].
      by eapply convert_loop_Raise.
  - intros Hs. unfold _convert_names.
    erewrite bind_Ok by reflexivity. cbn beta iota.
    erewrite bind_Ok by (apply convert_loop_spec; exact Hs).
    reflexivity.
Qed.

(** ** Splitting a content type *)

Lemma split_length (c : ascii) (s : string) :
  length (split c s) = S (count_char c s).
Proof.
  induction s as [|a s IH]; simpl; [done|].
  destruct (Ascii.eqb a c); simpl; [by rewrite IH|].
  destruct (split c s); simpl in *; lia.
Qed.

Lemma count_char_in (c : ascii) (s : string) :
  (1 ≤ count_char c s)%nat → char_in c s = true.
Proof.
  induction s as [|a s IH]; simpl; [lia|].
  destruct (Ascii.eqb a c); simpl; auto.
Qed.

Lemma split1_two (c : ascii) (s : string) :
  char_in c s = true →
  ∃ a b, split1 c s = [a; b] ∧ s = a +:+ String c b ∧ char_in c a = false.
Proof.
  induction s as [|x s IH]; simpl; [done|].
  destruct (Ascii.eqb x c) eqn:Hx.
  - apply Ascii.eqb_eq in Hx as ->. intros _. by exists "", s.
  - intros Hin. destruct (IH Hin) as (a & b & -> & -> & Ha).
    exists (String x a), b. simpl. by rewrite Hx.
Qed.

Lemma split_type_many_slashes (t : string) (w : world) :
  (2 ≤ count_char "/" t)%nat → split_type (PStr t) w = (Raise ValueError, w).
Proof.
  intros Ht. unfold split_type.
  rewrite count_char_in by lia.
  pose proof (split_length "/" t) as Hlen.
  destruct (split "/" t) as [|a [|b [|c l]]]; simpl in Hlen; try lia; done.
Qed.

Lemma split_type1_total (t : string) :
  char_in "/" t = true →
  ∃ maintype subtype,
    t = maintype +:+ "/" +:+ subtype ∧ char_in "/" maintype = false ∧
    ∀ w, split_type1 (PStr t) w = (Ok (maintype, subtype), w).
Proof.
  intros Hin. destruct (split1_two _ _ Hin) as (a & b & Hs & -> & Ha).
  exists a, b. split_and!; [done..|].
  intros w. unfold split_type1. by rewrite Hin, Hs.
Qed.

Lemma split_type_Ok_inv t w maintype subtype w' :
  split_type t w = (Ok (maintype, subtype), w') →
  w' = w
  ∧ ((t = PNone ∧ (maintype, subtype) = default_type)
     ∨ ∃ s, t = PStr s
            ∧ ((char_in "/" s = true ∧ split "/" s = [maintype; subtype])
               ∨ (char_in "/" s = false ∧ (maintype, subtype) = default_type))).
Proof.
  unfold split_type. destruct t as [|s| |]; try done.
  - intros [= <- <- <-]. eauto.
  - destruct (char_in "/" s) eqn:Hin.
    + destruct (split "/" s) as [|mt [|st [|? ?]]] eqn:Hs; try done.
      intros [= <- <- <-]. eauto 10.
    + intros [= <- <- <-]. eauto 10.
Qed.

Lemma as_str_Ok_inv v w s w' : as_str v w = (Ok s, w') → v = PStr s ∧ w' = w.
Proof. destruct v; try done. by intros [= <- <-]. Qed.

Ltac msimpl :=
  unfold mbind, M_bind, bind, mret, M_ret, ret, raise, lift, as_str; simpl.

(** C10. A content type with two or more '/' breaks the two-target
    unpacking of [split('/')]: an attachment given by its data or by its url
    raises ValueError, which is no MailerException, while an inline element
    read from a file, which splits with [split('/', 1)], is built with
    everything after the first '/' as its subtype. *)
Theorem two_slashes_break_the_split (E : Env) (i : nat) (w : world)
    (t : string) :
  (2 ≤ count_char "/" t)%nat →
  (∀ (d : dict) data,
     d !! "data" = Some data →
     d !! "type" = Some (PStr t)
     ∨ (d !! "type" = None
        ∧ ∃ n, d !! "name" = Some (PStr n) ∧ guess_type E n = Some t) →
     build_attachment E i (IDict d) w = (Raise ValueError, w))
  ∧ (∀ (d : dict) url response,
       d !! "data" = None → d !! "file" = None →
       d !! "url" = Some (PStr url) →
       urlopen E url = FetchOk response →
       url_attachment_type d response = PStr t →
       build_attachment E i (IDict d) w = (Raise ValueError, w))
  ∧ (∀ (d : dict) cid file content,
       d !! "cid" = Some (PStr cid) → char_in "@" cid = true →
       d !! "data" = None → d !! "file" = Some (PStr file) →
       isfile E file = true → read_file E file = Ok content →
       d !! "type" = Some (PStr t) →
       ∃ maintype subtype,
         t = maintype +:+ "/" +:+ subtype ∧ char_in "/" maintype = false ∧
         build_inline E i (IDict d) w =
           (Ok (add_header "Content-Disposition" "inline"
                  (add_header "Content-ID" ("<" +:+ cid +:+ ">")
                     (MIMEAnyType maintype subtype (hd "" (split "@" cid))
                        content []))), w))
  ∧ (∀ e, ValueError ≠ MailerException e).
Proof.
  intros Ht. split_and!.
  - intros d data Hdata Htype. unfold build_attachment. rewrite Hdata.
    unfold attachment_from_data, data_attachment_type, data_attachment_name.
    destruct Htype as [Hty | (Hty & n & Hn & Hg)]; rewrite Hty.
    + erewrite bind_Ok by reflexivity.
      erewrite bind_Raise by (by apply split_type_many_slashes). done.
    + rewrite Hn. simpl. unfold guess.
      erewrite bind_Ok by (msimpl; rewrite Hg; reflexivity).
      erewrite bind_Raise by (by apply split_type_many_slashes). done.
  - intros d url response Hdata Hfile Hurl Hopen Hty.
    unfold build_attachment. rewrite Hdata, Hfile, Hurl.
    unfold attachment_from_url.
    erewrite bind_Ok by reflexivity. cbn beta. rewrite Hopen, Hty.
    erewrite bind_Raise by (by apply split_type_many_slashes). done.
  - intros d cid file content Hcid Hat Hdata Hfile Hisfile Hread Hty.
    destruct (split_type1_total t) as (mt & st & Heq & Hmt & Hsplit).
    { apply count_char_in. lia. }
    exists mt, st. split_and!; [done..|].
    assert (truthy (PStr t) = true) as Htruthy.
    { destruct t; [simpl in Ht; lia | done]. }
    assert (inline_from_file E i d (hd "" (split "@" cid)) (PStr file) w =
            (Ok (MIMEAnyType mt st (hd "" (split "@" cid)) content []), w))
      as Hpart.
    { unfold inline_from_file.
      erewrite bind_Ok by reflexivity. cbn beta.
      rewrite Hisfile, Hty. simpl. unfold py_or. rewrite Htruthy.
      erewrite bind_Ok by apply Hsplit. simpl.
      erewrite bind_Ok by (unfold lift; rewrite Hread; reflexivity).
      reflexivity. }
    unfold build_inline. rewrite Hcid, Hat, Hdata, Hfile. simpl.
    erewrite bind_Ok by apply Hpart. reflexivity.
  - done.
Qed.

(** ** The stages of [send] *)

Section Send.
Context (E : Env).

Lemma build_parts_length build xs : ∀ i parts w r w',
  build_parts build i xs parts w = (Ok r, w') →
  length r = length parts + length xs.
Proof.
  induction xs as [|x xs IH]; intros i parts w r w'; simpl.
  - intros [= <- _]. lia.
  - intros H. apply bind_Ok_inv in H as (part & w1 & _ & H).
    apply IH in H. rewrite length_app in H. simpl in H. lia.
Qed.

(** What a successful [prepare] returned. *)
Lemma prepare_Ok_inv self a w p w' :
  prepare E self a w = (Ok p, w') →
  plaintext_part p = text_part E (plaintext a) "text"
  ∧ html_part p = text_part E (html a) "html"
  ∧ length (attachment_parts p) = length (items_of (attachments a))
  ∧ length (inline_parts p) = length (items_of (inlines a)).
Proof.
  unfold prepare. intros H.
  apply bind_Ok_inv in H as (t & w1 & _ & H).
  apply bind_Ok_inv in H as (c & w2 & _ & H).
  apply bind_Ok_inv in H as (b & w3 & _ & H).
  apply bind_Ok_inv in H as (f & w4 & _ & H).
  apply bind_Ok_inv in H as (r & w5 & _ & H).
  apply bind_Ok_inv in H as (ap & w6 & Hap & H).
  apply bind_Ok_inv in H as (ip & w7 & Hip & H).
  injection H as <- _. simpl.
  apply build_parts_length in Hap, Hip. done.
Qed.


Lemma attach_all_multipart parts st ps h :
  attach_all parts (MIMEMultipart st ps h) = MIMEMultipart st (ps ++ parts) h.
Proof.
  revert ps. induction parts as [|part parts IH]; intros ps; simpl.
  - by rewrite app_nil_r.
  - unfold attach_all in *. simpl. rewrite IH. by rewrite <- app_assoc.
Qed.

Lemma send_prepared self a w p w' :
  prepare E self a w = (Ok p, w') →
  send E self a w = deliver E self p (header a) w'.
Proof. intros H. unfold send. by erewrite bind_Ok. Qed.

Lemma send_not_prepared self a w e w' :
  prepare E self a w = (Raise e, w') → send E self a w = (Raise e, w').
Proof. intros H. unfold send. by erewrite bind_Raise. Qed.

Lemma assemble_header_recipients p header message :
  (assemble_header p header message).2 = recipients p.
Proof.
  unfold assemble_header, recipients, set_recipients. simpl.
  destruct (to' p) as [[|? ?]|], (cc' p) as [[|? ?]|], (bcc' p) as [[|? ?]|];
    simpl; rewrite ?app_nil_r, <- ?app_assoc; done.
Qed.






End Send.



(** C3 as written fails.  With no recipient and no content at all, the
    parameters resolve, the recipient list is empty, and [send] fails with
    EmptyMessage: the check for an empty message comes first. *)
Lemma empty_message_before_no_recipients :
  prepare example_env logged_in no_args empty_world
    = (Ok nothing_prepared, empty_world)
  ∧ recipients nothing_prepared = []
  ∧ send example_env logged_in no_args empty_world
    = (Raise (MailerException NothingToSend), empty_world)
  ∧ kind_of NothingToSend ≠ NoRecipients
  ∧ ¬ no_recipients_whatever_the_body.
Proof.
  split_and!; [reflexivity..|done|].
  intros H.
  destruct (H example_env logged_in no_args empty_world nothing_prepared
              empty_world eq_refl eq_refl) as [w'' Hsend].
  vm_compute in Hsend. discriminate Hsend.
Qed.

(** C3, amended. With no recipient left after resolution, [send] fails with
    NoRecipients when there is a message to send: a body, or attachments
    and no inline element.  When there is no body, no inline element and
    no attachment, the check for an empty message comes first and [send]
    fails with EmptyMessage.  Nothing is handed to the transport. *)
Theorem no_recipients_after_empty_check (E : Env) (self : Mailer)
    (a : send_args) (w : world) (p : prepared) (w' : world) :
  prepare E self a w = (Ok p, w') →
  recipients p = [] →
  outbox w' = outbox w
  ∧ (plaintext a ≠ IVal PNone ∨ html a ≠ IVal PNone
     ∨ (items_of (inlines a) = [] ∧ items_of (attachments a) ≠ []) →
     send E self a w = (Raise (MailerException NoRecipientsDefined), w')
     ∧ kind_of NoRecipientsDefined = NoRecipients)
  ∧ (plaintext a = IVal PNone → html a = IVal PNone →
     items_of (inlines a) = [] → items_of (attachments a) = [] →
     send E self a w = (Raise (MailerException NothingToSend), w')
     ∧ kind_of NothingToSend = EmptyMessage).
Proof.
  intros Hp Hrec. split; [exact (quiet_prepare E self a _ _ _ Hp)|].
  rewrite (send_prepared _ _ _ _ _ _ Hp).
  apply prepare_Ok_inv in Hp as (Hpt & Hph & Hatt & Hinl).
  assert (∀ message h, (let '(message, recipients) :=
                          assemble_header p h message in
                        match recipients with
                        | [] => raise (MailerException NoRecipientsDefined)
                        | _ => sendmail E self (from_addr' p) recipients message
                        end) w' =
                       (Raise (MailerException NoRecipientsDefined), w'))
    as Hcheck.
  { intros message h. pose proof (assemble_header_recipients p h message) as Hr.
    destruct (assemble_header p h message) as [m r]. simpl in Hr.
    by rewrite Hr, Hrec. }
  split.
  - intros Hsome. split; [|done]. unfold deliver, compose.
    assert ((∃ body, compose_body (plaintext_part p) (html_part p) = Some body)
            ∨ (compose_body (plaintext_part p) (html_part p) = None
               ∧ inline_parts p = [] ∧ attachment_parts p ≠ [])) as Hcases.
    { rewrite Hpt, Hph. unfold text_part.
      destruct (plaintext a) as [[]|], (html a) as [[]|]; simpl; eauto.
      right. destruct Hsome as [?|[?|[Hi Ha]]]; [done..|].
      rewrite Hi in Hinl.
      split_and!; [done| |].
      - by destruct (inline_parts p).
      - intros Hnil. rewrite Hnil in Hatt.
        by destruct (items_of (attachments a)). }
    destruct Hcases as [[body ->] | (-> & -> & Ha)].
    + unfold compose_content.
      destruct (inline_parts p), (attachment_parts p); simpl; apply Hcheck.
    + destruct (attachment_parts p); [done|]. simpl. apply Hcheck.
  - intros Ht Hh Hi Ha. split; [|done]. unfold deliver, compose.
    rewrite Hpt, Hph, Ht, Hh. rewrite Hi in Hinl. rewrite Ha in Hatt.
    destruct (inline_parts p), (attachment_parts p); done.
Qed.

(** ** Header assembly *)

Lemma headers_of_setitem k v m : headers_of (setitem k v m) = headers_of m ++ [(k, v)].
Proof. by destruct m. Qed.

Lemma headers_of_set_recipients k l m r :
  headers_of (set_recipients k l (m, r)).1 = headers_of m ++ recipient_field k l.
Proof.
  unfold set_recipients, recipient_field.
  destruct l as [[|? ?]|]; simpl; rewrite ?app_nil_r, ?headers_of_setitem; done.
Qed.

Lemma headers_of_merge header : ∀ m,
  headers_of (foldl (λ message kv, setitem kv.1 kv.2 message) m header)
  = headers_of m ++ header.
Proof.
  induction header as [|[k v] header IH]; intros m; simpl.
  - by rewrite app_nil_r.
  - rewrite IH, headers_of_setitem. by rewrite <- app_assoc.
Qed.

Lemma assemble_header_headers p header message :
  headers_of (assemble_header p header message).1
  = headers_of message ++ computed_headers p ++ header.
Proof.
  unfold assemble_header, computed_headers. cbn [fst].
  rewrite headers_of_merge, !headers_of_setitem.
  assert (∀ m, headers_of
                 match reply_to' p with
                 | Some reply_to =>
                     if negb (String.eqb reply_to "")
                     then setitem "Reply-To" reply_to m else m
                 | None => m
                 end
               = headers_of m ++
                 match reply_to' p with
                 | Some reply_to =>
                     if String.eqb reply_to "" then [] else [("Reply-To", reply_to)]
                 | None => []
                 end) as ->.
  { intros m. destruct (reply_to' p) as [r|]; [|by rewrite app_nil_r].
    destruct (String.eqb r ""); simpl;
      by rewrite ?headers_of_setitem, ?app_nil_r. }
  destruct (set_recipients "To" (to' p) (message, [])) as [m1 r1] eqn:H1.
  destruct (set_recipients "Cc" (cc' p) (m1, r1)) as [m2 r2] eqn:H2.
  destruct (set_recipients "Bcc" (bcc' p) (m2, r2)) as [m3 r3] eqn:H3.
  pose proof (headers_of_set_recipients "To" (to' p) message []) as E1.
  pose proof (headers_of_set_recipients "Cc" (cc' p) m1 r1) as E2.
  pose proof (headers_of_set_recipients "Bcc" (bcc' p) m2 r2) as E3.
  rewrite H1 in E1. rewrite H2 in E2. rewrite H3 in E3. simpl in *.
  rewrite E3, E2, E1. by rewrite <- !app_assoc.
Qed.

Lemma compose_world p w r w' : compose p w = (r, w') → w' = w.
Proof.
  unfold compose, compose_content.
  destruct (inline_parts p), (compose_body _ _); msimpl; by intros [= _ <-].
Qed.

(** The root of the composed tree carries no field of its own yet. *)
Lemma compose_root_headers E p a w m w' :
  plaintext_part p = text_part E (plaintext a) "text" →
  html_part p = text_part E (html a) "html" →
  compose p w = (Ok (Some m), w') → headers_of m = [].
Proof.
  unfold compose, compose_content, compose_message. intros -> ->.
  unfold text_part.
  destruct (plaintext a) as [[]|], (html a) as [[]|], (inline_parts p),
    (attachment_parts p); msimpl; intros [= <- _];
    rewrite ?attach_all_multipart; done.
Qed.

(** C4 as written fails.  A Subject given in [header] is added after the
    computed Subject: the message handed to the transport has both, the
    computed one first. *)
Lemma caller_subject_is_added :
  send example_env logged_in subject_twice empty_world
    = (Ok [], {| log := [];
                 outbox := [("test@example.com", ["a@example.com"],
                             subject_twice_message)] |})
  ∧ headers_of subject_twice_message
    = [("To", "a@example.com"); ("From", "test@example.com");
       ("Subject", "S"); ("Subject", "X")]
  ∧ ¬ caller_headers_overwrite.
Proof.
  split_and!; [reflexivity..|].
  intros H.
  destruct (H example_env logged_in subject_twice empty_world (Ok [])
              {| log := [];
                 outbox := [("test@example.com", ["a@example.com"],
                             subject_twice_message)] |}
              "test@example.com" ["a@example.com"] subject_twice_message
              eq_refl eq_refl) as [Hdup Hwin].
  specialize (Hwin "Subject" "X" "S").
  assert ("S" = "X") as Heq; [|discriminate Heq].
  apply Hwin; vm_compute; set_solver.
Qed.

(** C4, amended. The caller-supplied headers are added after the computed
    ones, in the order of the mapping: the fields of the message handed to
    the transport are the computed fields followed by the caller's.  A
    caller-supplied header named like a computed one does not replace it. *)
Theorem caller_headers_are_appended (E : Env) (self : Mailer) (a : send_args)
    (w : world) (r : outcome (list string)) (w' : world) (from_addr : string)
    (rcpts : list string) (message : mime) :
  send E self a w = (r, w') →
  outbox w' = outbox w ++ [(from_addr, rcpts, message)] →
  ∃ p w1, prepare E self a w = (Ok p, w1)
          ∧ headers_of message = computed_headers p ++ header a.
Proof.
  intros Hsend Hout.
  assert (∀ o : list (string * list string * mime),
            o ≠ o ++ [(from_addr, rcpts, message)]) as Hne.
  { intros o Ho. apply (f_equal length) in Ho.
    rewrite length_app in Ho. simpl in Ho. lia. }
  destruct (prepare E self a w) as [[p|e] w1] eqn:Hp.
  2:{ rewrite (send_not_prepared _ _ _ _ _ _ Hp) in Hsend.
      injection Hsend as _ <-.
      rewrite (quiet_prepare E self a _ _ _ Hp) in Hout. by apply Hne in Hout. }
  exists p, w1. split; [done|].
  rewrite (send_prepared _ _ _ _ _ _ Hp) in Hsend.
  pose proof (quiet_prepare E self a _ _ _ Hp) as Hq.
  apply prepare_Ok_inv in Hp as (Hpt & Hph & _).
  unfold deliver in Hsend.
  destruct (bind_cases (compose p)
              (λ message,
                 match message with
                 | None => raise (MailerException NothingToSend)
                 | Some message =>
                     let '(message, recipients) :=
                       assemble_header p (header a) message in
                     match recipients with
                     | [] => raise (MailerException NoRecipientsDefined)
                     | _ => sendmail E self (from_addr' p) recipients message
                     end
                 end) w1)
    as [(m & w2 & Hc & Hb) | (e & w2 & Hc & Hb)];
    rewrite Hb in Hsend; clear Hb;
    pose proof (compose_world _ _ _ _ Hc) as ->.
  2:{ injection Hsend as _ <-. rewrite Hq in Hout. by apply Hne in Hout. }
  destruct m as [m|].
  2:{ injection Hsend as _ <-. rewrite Hq in Hout. by apply Hne in Hout. }
  pose proof (assemble_header_headers p (header a) m) as Hh.
  rewrite (compose_root_headers E p a _ _ _ Hpt Hph Hc) in Hh.
  destruct (assemble_header p (header a) m) as [m' rc]. cbn [fst app] in Hh.
  destruct rc as [|x rc].
  { injection Hsend as _ <-. rewrite Hq in Hout. by apply Hne in Hout. }
  unfold sendmail in Hsend. destruct (_conn self).
  2:{ injection Hsend as _ <-. rewrite Hq in Hout. by apply Hne in Hout. }
  injection Hsend as _ <-. simpl in Hout. rewrite Hq in Hout.
  apply app_inv_head in Hout. injection Hout as _ _ <-. exact Hh.
Qed.

(** ** The From address *)

(** C9. Without [from_addr], the From address is derived from the login
    user.  On a Mailer that holds no user, the test ['@' in self._user]
    raises TypeError, which is no MailerException: [send] fails, with
    TypeError as soon as the recipient arguments pass [_convert_names], and
    hands nothing to the transport.  A Mailer holds no user when it is
    fresh from [__init__], still after [connect], and after a [quit] that
    returned; only [login] stores one. *)
Theorem from_needs_login_user (E : Env) (self : Mailer) (a : send_args)
    (w : world) :
  _user self = None →
  from_addr a = IVal PNone →
  derive_from E self (from_addr a) w = (Raise TypeError, w)
  ∧ (∃ e w', send E self a w = (Raise e, w') ∧ outbox w' = outbox w)
  ∧ (∀ t w1 c w2 b w3,
       _convert_names E (to a) "to" w = (Ok t, w1) →
       _convert_names E (cc a) "cc" w1 = (Ok c, w2) →
       _convert_names E (bcc a) "bcc" w2 = (Ok b, w3) →
       send E self a w = (Raise TypeError, w3))
  ∧ (∀ e, TypeError ≠ MailerException e)
  ∧ (∀ host port cipher, _user (Mailer_init host port cipher) = None)
  ∧ (∀ mailer, _user (connect E mailer).1 = _user mailer)
  ∧ (∀ mailer mailer', quit E mailer = (mailer', Ok tt) → _user mailer' = None).
Proof.
  intros Huser Hfrom.
  assert (∀ w, derive_from E self (from_addr a) w = (Raise TypeError, w))
    as Hderive.
  { intros w0. unfold derive_from. by rewrite Hfrom, Huser. }
  assert (∀ t w1 c w2 b w3,
            _convert_names E (to a) "to" w = (Ok t, w1) →
            _convert_names E (cc a) "cc" w1 = (Ok c, w2) →
            _convert_names E (bcc a) "bcc" w2 = (Ok b, w3) →
            prepare E self a w = (Raise TypeError, w3)) as Hprep.
  { intros t w1 c w2 b w3 Ht Hc Hb. unfold prepare.
    erewrite bind_Ok by exact Ht. erewrite bind_Ok by exact Hc.
    erewrite bind_Ok by exact Hb. by erewrite bind_Raise by apply Hderive. }
  split_and!; [apply Hderive| | |done|done| |].
  3:{ intros mailer. unfold connect.
      destruct (bool_decide _), (smtp_connect _ _ _ _); try done.
      by destruct (bool_decide _). }
  3:{ intros mailer mailer'. unfold quit.
      destruct (_conn mailer); [|done].
      destruct (smtp_quit _ _ _); [|done]. by intros [= <-]. }
  - destruct (prepare E self a w) as [[p|e] w'] eqn:Hp.
    + exfalso. unfold prepare in Hp.
      apply bind_Ok_inv in Hp as (t & w1 & _ & Hp).
      apply bind_Ok_inv in Hp as (c & w2 & _ & Hp).
      apply bind_Ok_inv in Hp as (b & w3 & _ & Hp).
      apply bind_Ok_inv in Hp as (f & w4 & Hf & _).
      by rewrite Hderive in Hf.
    + exists e, w'. split; [by apply send_not_prepared|].
      exact (quiet_prepare E self a _ _ _ Hp).
  - intros t w1 c w2 b w3 Ht Hc Hb.
    apply send_not_prepared. by eapply Hprep.
Qed.

(** ** Attachments and inline elements *)

Lemma attachment_from_url_Ok (E : Env) (i : nat) (d : dict) (url : string)
    (response : http_response) (w : world) maintype subtype :
  urlopen E url = FetchOk response →
  split_type (url_attachment_type d response) w = (Ok (maintype, subtype), w) →
  attachment_from_url E i d (PStr url) w
  = (let attachment_name :=
       default (opt_str (get_filename response)) (d !! "name") in
     let attachment_name :=
       match attachment_name with
       | PNone => PStr (url_path_basename E url)
       | _ => attachment_name
       end in
     let attachment_name :=
       if negb (truthy attachment_name) then
         PStr ("Unnamed attachment " +:+ pretty i +:+
               default ".dat"
                 (guess_extension E (maintype +:+ "/" +:+ subtype)))
       else attachment_name in
     name ← as_str attachment_name;
     mret (attachment_disposition name
             (MIMEAnyType maintype subtype name (read response) []))) w.
Proof.
  intros Hopen Hsplit. unfold attachment_from_url.
  erewrite bind_Ok by reflexivity. cbn beta. rewrite Hopen.
  by erewrite bind_Ok by exact Hsplit.
Qed.

(** C5 as written fails.  The attachment is named photo.png, from which
    image/png is guessed; the response declares text/html; the part built
    is text/html. *)
Lemma remote_type_ignores_the_name :
  guess_type example_env "photo.png" = Some "image/png"
  ∧ build_attachment example_env 0 (IDict named_remote_attachment) empty_world
    = (Ok named_remote_part, empty_world)
  ∧ content_type named_remote_part = "text/html"
  ∧ ¬ remote_type_guessed_from_name_first.
Proof.
  split_and!; [reflexivity..|].
  intros H.
  specialize (H example_env 0 named_remote_attachment
                "https://example.com/photo.png" "photo.png" "image/png"
                empty_world named_remote_part empty_world).
  discriminate H; vm_compute; reflexivity.
Qed.

(** C5, amended. For an attachment given by its url, the type of the part
    built is the caller's when there is one; with no type from the caller
    it is the type the response declares, and [mimetypes.guess_type] is not
    consulted: another [guess_type] gives the same result.  The part gets
    the two halves of that type, or application/octet-stream when the type
    has no '/' (or the caller's type is None). *)
Theorem remote_type_from_response (E : Env) (i : nat) (d : dict)
    (url : string) (response : http_response) (w : world) :
  d !! "data" = None → d !! "file" = None →
  d !! "url" = Some (PStr url) →
  urlopen E url = FetchOk response →
  let typed_by t part :=
    ∃ maintype subtype name,
      part = attachment_disposition name
               (MIMEAnyType maintype subtype name (read response) [])
      ∧ ((char_in "/" t = true ∧ split "/" t = [maintype; subtype])
         ∨ (char_in "/" t = false ∧ (maintype, subtype) = default_type)) in
  (∀ t, d !! "type" = Some t → url_attachment_type d response = t)
  ∧ (d !! "type" = None →
     url_attachment_type d response = PStr (get_content_type response))
  ∧ (∀ g, build_attachment (with_guess_type E g) i (IDict d) w
          = build_attachment E i (IDict d) w)
  ∧ (∀ t, d !! "type" = Some (PStr t) →
     ∀ part w', build_attachment E i (IDict d) w = (Ok part, w') →
       typed_by t part)
  ∧ (d !! "type" = Some PNone →
     ∀ part w', build_attachment E i (IDict d) w = (Ok part, w') →
       ∃ name,
         part = attachment_disposition name
                  (MIMEAnyType "application" "octet-stream" name
                     (read response) []))
  ∧ (d !! "type" = None →
     ∀ part w', build_attachment E i (IDict d) w = (Ok part, w') →
       typed_by (get_content_type response) part)
  ∧ (∀ t maintype subtype name,
       d !! "type" = Some (PStr t) ∨
       (d !! "type" = None ∧ t = get_content_type response) →
       char_in "/" t = true → split "/" t = [maintype; subtype] →
       d !! "name" = Some (PStr name) → name ≠ "" →
       build_attachment E i (IDict d) w
       = (Ok (attachment_disposition name
                (MIMEAnyType maintype subtype name (read response) [])), w)).
Proof.
  intros Hdata Hfile Hurl Hopen. cbn zeta.
  assert (∀ part w', build_attachment E i (IDict d) w = (Ok part, w') →
            ∃ maintype subtype name,
              part = attachment_disposition name
                       (MIMEAnyType maintype subtype name (read response) [])
              ∧ split_type (url_attachment_type d response) w
                = (Ok (maintype, subtype), w)) as Hbuilt.
  { intros part w'. unfold build_attachment. rewrite Hdata, Hfile, Hurl.
    unfold attachment_from_url. intros H.
    apply bind_Ok_inv in H as (u & w1 & [= <- <-] & H). rewrite Hopen in H.
    apply bind_Ok_inv in H as ([mt st] & w2 & Hsplit & H).
    apply bind_Ok_inv in H as (name & w3 & _ & [= <- _]).
    pose proof Hsplit as [-> _]%split_type_Ok_inv.
    exists mt, st, name. done. }
  split_and!.
  - intros t Ht. unfold url_attachment_type. by rewrite Ht.
  - intros Ht. unfold url_attachment_type. by rewrite Ht.
  - intros g. unfold build_attachment. rewrite Hdata, Hfile, Hurl.
    reflexivity.
  - intros t Ht part w' H.
    apply Hbuilt in H as (mt & st & name & -> & Hsplit).
    exists mt, st, name. split; [done|].
    unfold url_attachment_type in Hsplit. rewrite Ht in Hsplit.
    apply split_type_Ok_inv in Hsplit
      as [_ [[? _]|(s & [= <-] & Hs)]]; [done|exact Hs].
  - intros Ht part w' H.
    apply Hbuilt in H as (mt & st & name & -> & Hsplit).
    unfold url_attachment_type in Hsplit. rewrite Ht in Hsplit.
    injection Hsplit as <- <-. by exists name.
  - intros Ht part w' H.
    apply Hbuilt in H as (mt & st & name & -> & Hsplit).
    exists mt, st, name. split; [done|].
    unfold url_attachment_type in Hsplit. rewrite Ht in Hsplit.
    apply split_type_Ok_inv in Hsplit
      as [_ [[? _]|(s & [= <-] & Hs)]]; [done|exact Hs].
  - intros t mt st name Ht Hin Hs Hname Hne.
    assert (url_attachment_type d response = PStr t) as Htype.
    { unfold url_attachment_type. by destruct Ht as [->|[-> ->]]. }
    unfold build_attachment. rewrite Hdata, Hfile, Hurl.
    rewrite (attachment_from_url_Ok E i d url response w mt st Hopen).
    2:{ rewrite Htype. unfold split_type. by rewrite Hin, Hs. }
    rewrite Hname. destruct name as [|c name]; done.
Qed.

(** C6 as written fails for inline elements.  Text given as [data] of an
    inline element is refused, not encoded. *)
Lemma inline_text_payload_refused :
  build_inline example_env 0 (IDict text_inline) empty_world
    = (Raise (MailerException (InlineDataNotBytes 0)), empty_world)
  ∧ ¬ inline_text_payload_accepted.
Proof.
  split; [reflexivity|].
  intros H.
  destruct (H example_env 0 text_inline "note@example.com" "hello" empty_world
              eq_refl eq_refl eq_refl) as (part & w' & Hbuild & _).
  vm_compute in Hbuild. discriminate Hbuild.
Qed.

(** C6, amended. For an attachment whose type resolves and splits, a
    payload given as text is encoded to UTF-8 and the part is built (the
    name being a str); a payload that is neither text nor bytes fails with
    InvalidContentType.  For an inline element only bytes are accepted: a
    payload given as text fails with InvalidContentType like any other
    payload that is not bytes. *)
Theorem data_payload_types (E : Env) (i : nat) (d : dict) (w : world) :
  (∀ data t maintype subtype,
     d !! "data" = Some data →
     data_attachment_type E d (data_attachment_name i d) w = (Ok t, w) →
     split_type t w = (Ok (maintype, subtype), w) →
     match data with
     | PStr s =>
         ∀ name, data_attachment_name i d = PStr name →
           build_attachment E i (IDict d) w =
             (Ok (attachment_disposition name
                    (MIMEAnyType maintype subtype name
                       (list_byte_of_string s) [])), w)
     | PBytes b =>
         ∀ name, data_attachment_name i d = PStr name →
           build_attachment E i (IDict d) w =
             (Ok (attachment_disposition name
                    (MIMEAnyType maintype subtype name b [])), w)
     | _ =>
         build_attachment E i (IDict d) w =
           (Raise (MailerException (AttachmentDataWrongType i)), w)
     end)
  ∧ (∀ cid data,
       d !! "cid" = Some (PStr cid) → char_in "@" cid = true →
       d !! "data" = Some data → (∀ b, data ≠ PBytes b) →
       build_inline E i (IDict d) w =
         (Raise (MailerException (InlineDataNotBytes i)), w))
  ∧ kind_of (AttachmentDataWrongType i) = InvalidContentType
  ∧ kind_of (InlineDataNotBytes i) = InvalidContentType.
Proof.
  split_and!; [| |done..].
  - intros data t mt st Hdata Htype Hsplit.
    unfold build_attachment. rewrite Hdata. unfold attachment_from_data.
    erewrite bind_Ok by exact Htype. erewrite bind_Ok by exact Hsplit.
    destruct data as [|s|b|z]; simpl; try done.
    + intros name ->. by erewrite bind_Ok by reflexivity.
    + intros name ->. by erewrite bind_Ok by reflexivity.
  - intros cid data Hcid Hat Hdata Hnb.
    unfold build_inline. rewrite Hcid, Hat, Hdata. simpl.
    erewrite bind_Raise; [reflexivity|].
    unfold inline_from_data. destruct data as [| |b|]; try done.
    by destruct (Hnb b).
Qed.

(** Every builder of an inline element returns a part with no field set. *)
Lemma inline_part_fresh (E : Env) (i : nat) (d : dict) (i_name : string)
    (w : world) part w' :
  match d !! "data" with
  | Some i_data => inline_from_data E i d i_name i_data
  | None =>
      match d !! "file" with
      | Some i_file => inline_from_file E i d i_name i_file
      | None =>
          match d !! "url" with
          | Some url => inline_from_url E d i_name url
          | None => raise (MailerException InlineNoSource)
          end
      end
  end w = (Ok part, w') →
  ∃ maintype subtype name payload,
    part = MIMEAnyType maintype subtype name payload [].
Proof.
  destruct (d !! "data") as [i_data|].
  { unfold inline_from_data. destruct i_data as [| |b|]; try done.
    intros H. apply bind_Ok_inv in H as ([mt st] & w1 & _ & [= <- _]). eauto. }
  destruct (d !! "file") as [i_file|].
  { unfold inline_from_file. intros H.
    apply bind_Ok_inv in H as (f & w1 & _ & H).
    destruct (negb (isfile E f)); [done|].
    apply bind_Ok_inv in H as ([mt st] & w2 & _ & H).
    apply bind_Ok_inv in H as (c & w3 & _ & [= <- _]). eauto. }
  destruct (d !! "url") as [url|]; [|done].
  unfold inline_from_url. intros H.
  apply bind_Ok_inv in H as (u & w1 & _ & H).
  destruct (urlopen E u); try done.
  apply bind_Ok_inv in H as ([mt st] & w2 & _ & [= <- _]). eauto.
Qed.

(** C8. An inline element whose cid contains '@' is built with the fields
    Content-ID, the cid between angle brackets and otherwise unchanged, and
    Content-Disposition: inline.  A cid without '@' and a missing cid fail
    with InvalidContentId. *)
Theorem inline_content_id (E : Env) (i : nat) (d : dict) (w : world) :
  (∀ cid part w',
     d !! "cid" = Some (PStr cid) → char_in "@" cid = true →
     build_inline E i (IDict d) w = (Ok part, w') →
     headers_of part =
       [("Content-ID", "<" +:+ cid +:+ ">"); ("Content-Disposition", "inline")])
  ∧ (∀ cid,
       d !! "cid" = Some (PStr cid) → char_in "@" cid = false →
       build_inline E i (IDict d) w =
         (Raise (MailerException InlineCidGrammar), w))
  ∧ (d !! "cid" = None →
     build_inline E i (IDict d) w =
       (Raise (MailerException (InlineCidMissing i)), w))
  ∧ kind_of InlineCidGrammar = InvalidContentId
  ∧ kind_of (InlineCidMissing i) = InvalidContentId.
Proof.
  split_and!; [| | |done..].
  - intros cid part w' Hcid Hat. unfold build_inline. rewrite Hcid, Hat. simpl.
    intros H. apply bind_Ok_inv in H as (part0 & w1 & Hpart & [= <- _]).
    apply inline_part_fresh in Hpart as (mt & st & name & payload & ->).
    reflexivity.
  - intros cid Hcid Hat. unfold build_inline. by rewrite Hcid, Hat.
  - intros Hcid. unfold build_inline. by rewrite Hcid.
Qed.

(** ** The theorems at concrete calls *)



(** C3, amended, at a call with text and no valid recipient, and at a call
    with nothing at all. *)
Lemma no_recipients_after_empty_check_witness :
  prepare example_env logged_in text_to_nobody empty_world
    = (Ok text_to_nobody_prepared, text_to_nobody_world)
  ∧ recipients text_to_nobody_prepared = []
  ∧ send example_env logged_in text_to_nobody empty_world
    = (Raise (MailerException NoRecipientsDefined), text_to_nobody_world)
  ∧ send example_env logged_in no_args empty_world
    = (Raise (MailerException NothingToSend), empty_world).
Proof.
  split_and!; [reflexivity..| |].
  - assert (plaintext text_to_nobody ≠ IVal PNone) as Htext by discriminate.
    exact (proj1 (proj1 (proj2 (no_recipients_after_empty_check example_env
                                  logged_in text_to_nobody empty_world
                                  text_to_nobody_prepared text_to_nobody_world
                                  eq_refl eq_refl))
                    (or_introl Htext))).
  - exact (proj1 (proj2 (proj2 (no_recipients_after_empty_check example_env
                                  logged_in no_args empty_world
                                  nothing_prepared empty_world
                                  eq_refl eq_refl))
                    eq_refl eq_refl eq_refl eq_refl)).
Defined.

(** C4, amended, at the call with two Subject fields. *)
Lemma caller_headers_are_appended_witness :
  send example_env logged_in subject_twice empty_world
    = (Ok [], {| log := [];
                 outbox := [("test@example.com", ["a@example.com"],
                             subject_twice_message)] |})
  ∧ ∃ p w1,
      prepare example_env logged_in subject_twice empty_world = (Ok p, w1)
      ∧ headers_of subject_twice_message
        = computed_headers p ++ [("Subject", "X")].
Proof.
  split; [reflexivity|].
  exact (caller_headers_are_appended example_env logged_in subject_twice
           empty_world (Ok [])
           {| log := [];
              outbox := [("test@example.com", ["a@example.com"],
                          subject_twice_message)] |}
           "test@example.com" ["a@example.com"] subject_twice_message
           eq_refl eq_refl).
Defined.

(** C5, amended, at the attachment named photo.png, without and with a
    type from the caller. *)
Lemma remote_type_from_response_witness :
  urlopen example_env "https://example.com/photo.png"
    = FetchOk {| get_content_type := "text/html"; get_filename := None;
                 read := list_byte_of_string "<html></html>" |}
  ∧ (∃ maintype subtype name,
       named_remote_part
       = attachment_disposition name
           (MIMEAnyType maintype subtype name
              (list_byte_of_string "<html></html>") [])
       ∧ ((char_in "/" "text/html" = true
           ∧ split "/" "text/html" = [maintype; subtype])
          ∨ (char_in "/" "text/html" = false
             ∧ (maintype, subtype) = default_type)))
  ∧ build_attachment example_env 0 (IDict typed_remote_attachment) empty_world
    = (Ok typed_remote_part, empty_world).
Proof.
  assert ("photo.png" ≠ "") as Hname by discriminate.
  split_and!; [reflexivity| |].
  - destruct (remote_type_from_response example_env 0
                named_remote_attachment "https://example.com/photo.png"
                {| get_content_type := "text/html"; get_filename := None;
                   read := list_byte_of_string "<html></html>" |}
                empty_world eq_refl eq_refl eq_refl eq_refl)
      as (_ & _ & _ & _ & _ & Hdeclared & _).
    exact (Hdeclared eq_refl named_remote_part empty_world eq_refl).
  - destruct (remote_type_from_response example_env 0
                typed_remote_attachment "https://example.com/photo.png"
                {| get_content_type := "text/html"; get_filename := None;
                   read := list_byte_of_string "<html></html>" |}
                empty_world eq_refl eq_refl eq_refl eq_refl)
      as (_ & _ & _ & _ & _ & _ & Hbuilt).
    exact (Hbuilt "image/png" "image" "png" "photo.png"
             (or_introl eq_refl) eq_refl eq_refl eq_refl Hname).
Defined.

(** C6, amended, at an attachment and an inline element whose data is
    text. *)
Lemma data_payload_types_witness :
  build_attachment example_env 0 (IDict {[ "data" := PStr "hello" ]})
    empty_world
  = (Ok (attachment_disposition "Unnamed attachment 0.dat"
           (MIMEAnyType "application" "octet-stream" "Unnamed attachment 0.dat"
              (list_byte_of_string "hello") [])), empty_world)
  ∧ build_attachment example_env 0 (IDict {[ "data" := PInt 5 ]}) empty_world
    = (Raise (MailerException (AttachmentDataWrongType 0)), empty_world)
  ∧ build_inline example_env 0 (IDict text_inline) empty_world
    = (Raise (MailerException (InlineDataNotBytes 0)), empty_world).
Proof.
  split_and!.
  - exact (proj1 (data_payload_types example_env 0 {[ "data" := PStr "hello" ]}
                    empty_world)
             (PStr "hello") PNone "application" "octet-stream"
             eq_refl eq_refl eq_refl "Unnamed attachment 0.dat" eq_refl).
  - exact (proj1 (data_payload_types example_env 0 {[ "data" := PInt 5 ]}
                    empty_world)
             (PInt 5) PNone "application" "octet-stream"
             eq_refl eq_refl eq_refl).
  - assert (∀ b, PStr "hello" ≠ PBytes b) as Hnb by discriminate.
    exact (proj1 (proj2 (data_payload_types example_env 0 text_inline
                           empty_world))
             "note@example.com" (PStr "hello") eq_refl eq_refl eq_refl Hnb).
Defined.

(** C7 at a list with two valid and three invalid recipients. *)
Lemma convert_names_skips_invalid_witness :
  _convert_names example_env (ArgSeq mixed_names) "to" empty_world
  = (Ok (Some ["a@example.com"; "=?utf-8?q?Bob?= <bob@example.com>"]),
     {| log := [WarnRecipientSkipped "to" (IVal (PStr "not an address"));
                WarnRecipientSkipped "to" (IVal (PInt 3));
                WarnRecipientSkipped "to" (IDict {[ "name" := PStr "Nobody" ]})];
        outbox := [] |}).
Proof.
  assert (Forall (λ n, is_valid (_extract example_env n) = true →
                       ∃ s, __str__ example_env (_extract example_env n) = Ok s)
            mixed_names) as Hs.
  { repeat constructor; intros _; eexists; vm_compute; reflexivity. }
  exact (proj2 (convert_names_skips_invalid example_env "to" mixed_names
                  empty_world) Hs).
Defined.

(** C8 at the inline element of the test at the end of the module, at a
    cid without '@' and at an element without cid. *)
Lemma inline_content_id_witness :
  build_inline example_env 0 (IDict logo_inline) empty_world
    = (Ok logo_part, empty_world)
  ∧ headers_of logo_part
    = [("Content-ID", "<logo@cloudflare.com>");
       ("Content-Disposition", "inline")]
  ∧ build_inline example_env 0
      (IDict {[ "cid" := PStr "logo"; "file" := PStr "README.md" ]})
      empty_world
    = (Raise (MailerException InlineCidGrammar), empty_world)
  ∧ build_inline example_env 0 (IDict {[ "file" := PStr "README.md" ]})
      empty_world
    = (Raise (MailerException (InlineCidMissing 0)), empty_world).
Proof.
  split_and!; [reflexivity| | |].
  - exact (proj1 (inline_content_id example_env 0 logo_inline empty_world)
             "logo@cloudflare.com" logo_part empty_world
             eq_refl eq_refl eq_refl).
  - exact (proj1 (proj2 (inline_content_id example_env 0
                           {[ "cid" := PStr "logo"; "file" := PStr "README.md" ]}
                           empty_world))
             "logo" eq_refl eq_refl).
  - exact (proj1 (proj2 (proj2 (inline_content_id example_env 0
                                  {[ "file" := PStr "README.md" ]}
                                  empty_world)))
             eq_refl).
Defined.

(** C9 at a Mailer fresh from [__init__]. *)
Lemma from_needs_login_user_witness :
  _user fresh_mailer = None
  ∧ from_addr both_texts = IVal PNone
  ∧ send example_env fresh_mailer both_texts empty_world
    = (Raise TypeError, empty_world).
Proof.
  split_and!; [reflexivity..|].
  exact (proj1 (proj2 (proj2 (from_needs_login_user example_env fresh_mailer
                                both_texts empty_world eq_refl eq_refl)))
           (Some ["a@example.com"]) empty_world None empty_world
           None empty_world eq_refl eq_refl eq_refl).
Defined.

(** C10 at the type a/b/c. *)
Lemma two_slashes_break_the_split_witness :
  (2 ≤ count_char "/" "a/b/c")%nat
  ∧ build_attachment example_env 0
      (IDict {[ "data" := PBytes []; "type" := PStr "a/b/c" ]}) empty_world
    = (Raise ValueError, empty_world)
  ∧ build_attachment example_env 0
      (IDict {[ "url" := PStr "https://example.com/photo.png";
                "type" := PStr "a/b/c" ]}) empty_world
    = (Raise ValueError, empty_world)
  ∧ ∃ maintype subtype,
      "a/b/c" = maintype +:+ "/" +:+ subtype
      ∧ char_in "/" maintype = false
      ∧ build_inline example_env 0
          (IDict {[ "cid" := PStr "logo@cloudflare.com";
                    "file" := PStr "README.md"; "type" := PStr "a/b/c" ]})
          empty_world
        = (Ok (add_header "Content-Disposition" "inline"
                 (add_header "Content-ID" "<logo@cloudflare.com>"
                    (MIMEAnyType maintype subtype "logo"
                       (list_byte_of_string "# utilities") []))),
           empty_world).
Proof.
  assert (2 ≤ count_char "/" "a/b/c")%nat as Hcount by (vm_compute; lia).
  destruct (two_slashes_break_the_split example_env 0 empty_world "a/b/c"
              Hcount) as (Hdata & Hurl & Hinline & _).
  split_and!; [exact Hcount| | |].
  - exact (Hdata {[ "data" := PBytes []; "type" := PStr "a/b/c" ]} (PBytes [])
             eq_refl (or_introl eq_refl)).
  - exact (Hurl {[ "url" := PStr "https://example.com/photo.png";
                   "type" := PStr "a/b/c" ]}
             "https://example.com/photo.png"
             {| get_content_type := "text/html"; get_filename := None;
                read := list_byte_of_string "<html></html>" |}
             eq_refl eq_refl eq_refl eq_refl eq_refl).
  - exact (Hinline {[ "cid" := PStr "logo@cloudflare.com";
                      "file" := PStr "README.md"; "type" := PStr "a/b/c" ]}
             "logo@cloudflare.com" "README.md"
             (list_byte_of_string "# utilities")
             eq_refl eq_refl eq_refl eq_refl eq_refl eq_refl eq_refl).
Defined.

(** * Further properties of the code *)

(** ** What [send] hands to the transport *)

Section Handoff.
Context (E : Env).

(** [send] either raises before the hand-off or calls [sendmail] once. *)
Lemma send_outcomes self a w r w' :
  send E self a w = (r, w') →
  (∃ e, r = Raise e ∧ outbox w' = outbox w)
  ∨ (∃ p w1 m0 m rc,
       prepare E self a w = (Ok p, w1)
       ∧ compose p w1 = (Ok (Some m0), w1)
       ∧ assemble_header p (header a) m0 = (m, rc)
       ∧ rc ≠ [] ∧ _conn self = true
       ∧ r = smtp_sendmail E (from_addr' p) rc m
       ∧ w' = {| log := log w1;
                 outbox := outbox w ++ [(from_addr' p, rc, m)] |}).
Proof.
  intros Hsend.
  destruct (prepare E self a w) as [[p|e] w1] eqn:Hp.
  2:{ rewrite (send_not_prepared _ _ _ _ _ _ Hp) in Hsend.
      injection Hsend as <- <-. left. exists e.
      split; [done|]. exact (quiet_prepare E self a _ _ _ Hp). }
  rewrite (send_prepared _ _ _ _ _ _ Hp) in Hsend.
  pose proof (quiet_prepare E self a _ _ _ Hp) as Hq.
  unfold deliver in Hsend.
  destruct (compose p w1) as [[m0|e] w2] eqn:Hc;
    pose proof (compose_world _ _ _ _ Hc) as ->.
  2:{ erewrite bind_Raise in Hsend by exact Hc.
      injection Hsend as <- <-. left. eauto. }
  erewrite bind_Ok in Hsend by exact Hc.
  destruct m0 as [m0|].
  2:{ injection Hsend as <- <-. left. eauto. }
  destruct (assemble_header p (header a) m0) as [m rc] eqn:Ha.
  destruct rc as [|x rc].
  { injection Hsend as <- <-. left. eauto. }
  unfold sendmail in Hsend. destruct (_conn self) eqn:Hconn.
  2:{ injection Hsend as <- <-. left. eauto. }
  injection Hsend as <- <-. right.
  exists p, w1, m0, m, (x :: rc). rewrite Hq. split_and!; done.
Qed.

Lemma send_handoff_inv self a w r w' f rc m :
  send E self a w = (r, w') →
  outbox w' = outbox w ++ [(f, rc, m)] →
  ∃ p w1 m0,
    prepare E self a w = (Ok p, w1)
    ∧ compose p w1 = (Ok (Some m0), w1)
    ∧ assemble_header p (header a) m0 = (m, rc)
    ∧ f = from_addr' p ∧ rc ≠ [] ∧ _conn self = true
    ∧ r = smtp_sendmail E f rc m.
Proof.
  intros Hsend Hout.
  apply send_outcomes in Hsend as [(e & -> & Hsame)|
    (p & w1 & m0 & m' & rc' & Hp & Hc & Ha & Hne & Hconn & -> & ->)].
  - rewrite Hsame in Hout. apply (f_equal length) in Hout.
    rewrite length_app in Hout. simpl in Hout. lia.
  - simpl in Hout. apply app_inv_head in Hout. injection Hout as <- <- <-.
    exists p, w1, m0. split_and!; done.
Qed.

End Handoff.

Lemma silent_ret {A} (a : A) : silent (mret a).
Proof. by intros w r w' [= _ <-]. Qed.

Lemma silent_raise {A} e : silent (@raise A e).
Proof. by intros w r w' [= _ <-]. Qed.

Lemma silent_lift {A} (o : outcome A) : silent (lift o).
Proof. by intros w r w' [= _ <-]. Qed.

Lemma silent_bind {A B} (c : M A) (k : A → M B) :
  silent c → (∀ a, silent (k a)) → silent (c ≫= k).
Proof.
  intros Hc Hk w r w'. unfold mbind, M_bind, bind.
  destruct (c w) as [[a|e] w1] eqn:E1.
  - intros E2. rewrite (Hk _ _ _ _ E2). eauto.
  - intros [= _ <-]. eauto.
Qed.

Create HintDb silent.
#[export] Hint Resolve silent_ret silent_raise silent_lift : silent.

Ltac silent :=
  repeat first
    [ progress eauto with silent
    | apply silent_bind; [| intros ?]
    | match goal with
      | |- silent (match ?x with _ => _ end) => destruct x
      | |- silent (if ?x then _ else _) => destruct x
      | |- silent (let '(_, _) := ?x in _) => destruct x
      end ].

Section Silent.
Context (E : Env).

Lemma silent_as_str v : silent (as_str v).
Proof. unfold as_str. silent. Qed.

Lemma silent_split_type t : silent (split_type t).
Proof. unfold split_type. silent. Qed.

Lemma silent_split_type1 t : silent (split_type1 t).
Proof. unfold split_type1. silent. Qed.

Hint Resolve silent_as_str silent_split_type silent_split_type1 : silent.

Lemma silent_build_attachment i x : silent (build_attachment E i x).
Proof.
  unfold build_attachment, attachment_from_data, attachment_from_file,
    attachment_from_url, data_attachment_type, guess.
  silent.
Qed.

Lemma silent_build_inline i x : silent (build_inline E i x).
Proof.
  unfold build_inline, inline_from_data, inline_from_file, inline_from_url.
  silent.
Qed.

Lemma silent_build_parts build i xs parts :
  (∀ i x, silent (build i x)) → silent (build_parts build i xs parts).
Proof.
  intros Hb. revert i parts.
  induction xs as [|x xs IH]; intros; simpl; silent; auto.
Qed.

Lemma silent_derive_from self x : silent (derive_from E self x).
Proof. unfold derive_from. silent. Qed.

(** The stages of a successful [prepare]. *)
Lemma prepare_Ok_stages self a w p w' :
  prepare E self a w = (Ok p, w') →
  ∃ w1 w2 w3,
    _convert_names E (to a) "to" w = (Ok (to' p), w1)
    ∧ _convert_names E (cc a) "cc" w1 = (Ok (cc' p), w2)
    ∧ _convert_names E (bcc a) "bcc" w2 = (Ok (bcc' p), w3)
    ∧ derive_from E self (from_addr a) w3 = (Ok (from_addr' p), w3)
    ∧ derive_reply_to E (reply_to a) (from_addr' p) w3 = (Ok (reply_to' p), w')
    ∧ subject' p = match subject a with
                   | IVal PNone => ""
                   | s => to_str E s
                   end
    ∧ build_parts (build_attachment E) 0 (items_of (attachments a)) [] w'
      = (Ok (attachment_parts p), w')
    ∧ build_parts (build_inline E) 0 (items_of (inlines a)) [] w'
      = (Ok (inline_parts p), w').
Proof.
  unfold prepare. intros H.
  apply bind_Ok_inv in H as (t & w1 & Ht & H).
  apply bind_Ok_inv in H as (c & w2 & Hc & H).
  apply bind_Ok_inv in H as (b & w3 & Hb & H).
  apply bind_Ok_inv in H as (f & w4 & Hf & H).
  apply bind_Ok_inv in H as (r & w5 & Hr & H).
  apply bind_Ok_inv in H as (ap & w6 & Hap & H).
  apply bind_Ok_inv in H as (ip & w7 & Hip & H).
  injection H as <- <-. simpl.
  pose proof (silent_derive_from _ _ _ _ _ Hf) as ->.
  pose proof (silent_build_parts _ _ _ _ (silent_build_attachment) _ _ _ Hap)
    as ->.
  pose proof (silent_build_parts _ _ _ _ (silent_build_inline) _ _ _ Hip) as ->.
  exists w1, w2, w3. split_and!; done.
Qed.

(** What a successful loop of [_convert_names] returned and logged. *)
Lemma convert_loop_Ok argname names : ∀ result w l w',
  convert_loop E names argname result w = (Ok l, w') →
  l = result ++ kept E names
  ∧ w' = {| log := log w ++ skipped E argname names; outbox := outbox w |}
  ∧ length (kept E names) + length (skipped E argname names) = length names.
Proof.
  induction names as [|n names IH]; intros result w l w'; simpl.
  - intros [= <- <-]. unfold skipped; simpl. rewrite !app_nil_r.
    by destruct w.
  - unfold kept, skipped; simpl. fold (kept E names).
    destruct (is_valid (_extract E n)) eqn:Hv; simpl.
    + destruct (__str__ E (_extract E n)) as [s|e] eqn:Hstr.
      * erewrite bind_Ok by (unfold lift; reflexivity).
        intros H. apply IH in H as (-> & -> & Hlen).
        rewrite <- app_assoc. split_and!; [done..|].
        simpl. unfold skipped in Hlen. lia.
      * by erewrite bind_Raise by (unfold lift; reflexivity).
    + erewrite bind_Ok by (unfold warning; reflexivity).
      intros H. apply IH in H as (-> & -> & Hlen). simpl.
      rewrite <- app_assoc. split_and!; [done..|].
      rewrite length_fmap in *. simpl. unfold skipped in Hlen.
      rewrite length_fmap in Hlen. lia.
Qed.

End Silent.

Section Appends.
Context (E : Env).

Lemma convert_names_Ok names argname w r w' :
  _convert_names E names argname w = (Ok r, w') →
  default [] r = kept E (names_of names)
  ∧ outbox w' = outbox w
  ∧ ∃ l, log w' = log w ++ l.
Proof.
  intros H. pose proof (quiet_convert_names E _ _ _ _ _ H) as Hq.
  unfold _convert_names in H.
  apply bind_Ok_inv in H as (names' & w1 & Hn & H).
  assert (∃ l0, log w1 = log w ++ l0 ∧ outbox w1 = outbox w
                ∧ ((names' = names ∧ ∀ s, names ≠ ArgOne (IVal (PStr s)))
                   ∨ ∃ s, names = ArgOne (IVal (PStr s))
                          ∧ names' = ArgSeq [IVal (PStr s)]))
    as (l0 & Hl0 & Ho & Hcase).
  { destruct names as [[[|s| |]|]|];
      unfold mbind, M_bind, bind, warning, mret, M_ret, ret in Hn;
      simpl in Hn; injection Hn as <- <-;
      try (exists []; rewrite app_nil_r; split_and!; [done..|]; left; done).
    exists [WarnStrDeprecated argname]. split_and!; [done..|]. right. eauto. }
  assert (names_of names' = names_of names) as Hnames.
  { destruct Hcase as [[-> _]|(s & -> & ->)]; done. }
  rewrite <- Hnames. split_and!; [|done|].
  - destruct names' as [[[]|]|l]; try done.
    + by injection H as <- <-.
    + apply bind_Ok_inv in H as (res & w2 & Hloop & [= <- <-]).
      by apply convert_loop_Ok in Hloop as (-> & _).
  - destruct names' as [[[]|]|l]; try done.
    + injection H as <- <-. eauto.
    + apply bind_Ok_inv in H as (res & w2 & Hloop & [= <- <-]).
      apply convert_loop_Ok in Hloop as (_ & -> & _). simpl.
      rewrite Hl0, <- app_assoc. eauto.
Qed.

End Appends.

(** X1: Whenever send hands a message to the SMTP transport, the recipient list
    it passes is the valid addresses of to, then of cc, then of bcc, in
    order and with repetitions kept. That list is not empty, and send
    returns what sendmail returned. *)
Theorem transport_gets_valid_recipients (E : Env) (self : Mailer)
    (a : send_args) (w : world) (r : outcome (list string)) (w' : world)
    (f : string) (rc : list string) (m : mime) :
  send E self a w = (r, w') →
  outbox w' = outbox w ++ [(f, rc, m)] →
  rc = kept E (names_of (to a)) ++ kept E (names_of (cc a))
       ++ kept E (names_of (bcc a))
  ∧ rc ≠ []
  ∧ r = smtp_sendmail E f rc m.
Proof.
  intros Hsend Hout.
  destruct (send_handoff_inv E _ _ _ _ _ _ _ _ Hsend Hout)
    as (p & w1 & m0 & Hp & Hc & Ha & -> & Hne & Hconn & ->).
  split_and!; [|done..].
  pose proof (assemble_header_recipients p (header a) m0) as Hr.
  rewrite Ha in Hr. simpl in Hr. rewrite Hr. unfold recipients.
  apply prepare_Ok_stages in Hp as (v1 & v2 & v3 & Ht & Hcc & Hb & _).
  apply convert_names_Ok in Ht as (-> & _), Hcc as (-> & _), Hb as (-> & _).
  done.
Qed.

Lemma appends_ret {A} (a : A) : appends (mret a).
Proof. intros w r w' [= _ <-]. exists []. by rewrite app_nil_r. Qed.

Lemma appends_raise {A} e : appends (@raise A e).
Proof. intros w r w' [= _ <-]. exists []. by rewrite app_nil_r. Qed.

Lemma appends_lift {A} (o : outcome A) : appends (lift o).
Proof. intros w r w' [= _ <-]. exists []. by rewrite app_nil_r. Qed.

Lemma appends_warning r : appends (warning r).
Proof. intros w r' w' [= _ <-]. by exists [r]. Qed.

Lemma appends_silent {A} (c : M A) : silent c → appends c.
Proof.
  intros Hc w r w' H. rewrite (Hc _ _ _ H). exists []. by rewrite app_nil_r.
Qed.

Lemma appends_bind {A B} (c : M A) (k : A → M B) :
  appends c → (∀ a, appends (k a)) → appends (c ≫= k).
Proof.
  intros Hc Hk w r w'. unfold mbind, M_bind, bind.
  destruct (c w) as [[a|e] w1] eqn:E1.
  - intros E2. destruct (Hc _ _ _ E1) as [l1 Hl1], (Hk _ _ _ _ E2) as [l2 Hl2].
    exists (l1 ++ l2). by rewrite Hl2, Hl1, <- app_assoc.
  - intros [= _ <-]. eauto.
Qed.

Section SendLog.
Context (E : Env).

Lemma appends_convert_loop names argname result :
  appends (convert_loop E names argname result).
Proof.
  revert result. induction names as [|n names IH]; intros; simpl.
  - apply appends_ret.
  - destruct (negb _).
    + apply appends_bind; [apply appends_warning | intros; apply IH].
    + apply appends_bind; [apply appends_lift | intros; apply IH].
Qed.

Lemma appends_convert_names names argname :
  appends (_convert_names E names argname).
Proof.
  unfold _convert_names. apply appends_bind.
  - destruct names as [[[]|]|]; try apply appends_ret.
    apply appends_bind; [apply appends_warning | intros; apply appends_ret].
  - intros [[[]|]|]; try apply appends_ret; try apply appends_raise.
    apply appends_bind; [apply appends_convert_loop | intros; apply appends_ret].
Qed.

Lemma appends_derive_reply_to x f : appends (derive_reply_to E x f).
Proof.
  unfold derive_reply_to.
  destruct x as [[]|]; try apply appends_ret;
    (destruct (negb _);
     [apply appends_bind; [apply appends_warning | intros; apply appends_ret]
     |apply appends_bind; [apply appends_lift | intros; apply appends_ret]]).
Qed.

Lemma appends_prepare self a : appends (prepare E self a).
Proof.
  unfold prepare.
  repeat (apply appends_bind;
          [first [ apply appends_convert_names
                 | apply appends_derive_reply_to
                 | apply appends_silent;
                   first [ apply silent_derive_from
                         | apply silent_build_parts;
                           first [ apply silent_build_attachment
                                 | apply silent_build_inline ] ] ]
          | intros ? ]).
  apply appends_ret.
Qed.

Lemma silent_compose p : silent (compose p).
Proof. intros w r w' H. by apply compose_world in H. Qed.

Lemma appends_sendmail self f rc m : appends (sendmail E self f rc m).
Proof.
  unfold sendmail. destruct (_conn self); [|apply appends_raise].
  intros w r w' [= _ <-]. exists []. simpl. by rewrite app_nil_r.
Qed.

Lemma appends_send self a : appends (send E self a).
Proof.
  unfold send. apply appends_bind; [apply appends_prepare|]. intros p.
  unfold deliver.
  apply appends_bind; [apply appends_silent, silent_compose|].
  intros [m|]; [|apply appends_raise].
  destruct (assemble_header p (header a) m) as [m' [|x rc]];
    [apply appends_raise | apply appends_sendmail].
Qed.

End SendLog.

(** X2: A call of send calls the transports sendmail at most once and only
    appends records to the log. When send returns normally, sendmail was
    called exactly once. *)
Theorem send_hands_over_at_most_once (E : Env) (self : Mailer) (a : send_args)
    (w : world) (r : outcome (list string)) (w' : world) :
  send E self a w = (r, w') →
  (outbox w' = outbox w ∨ ∃ entry, outbox w' = outbox w ++ [entry])
  ∧ (∃ l, log w' = log w ++ l)
  ∧ (∀ refused, r = Ok refused → ∃ entry, outbox w' = outbox w ++ [entry]).
Proof.
  intros Hsend. pose proof (appends_send E self a _ _ _ Hsend) as Hlog.
  apply send_outcomes in Hsend as [(e & -> & Hsame)|
    (p & w1 & m0 & m & rc & Hp & Hc & Ha & Hne & Hconn & -> & ->)].
  - split_and!; [by left | done | done].
  - split_and!; [right; eauto | done | eauto].
Qed.

(** X3: _convert_names returns None for None and logs nothing; a single str
    behaves as the one-element list after one deprecation warning; any other
    value that is no collection raises MailerException and logs nothing. *)
Theorem convert_names_without_collection (E : Env) (argname : string)
    (w : world) :
  _convert_names E (ArgOne (IVal PNone)) argname w = (Ok None, w)
  ∧ (∀ s, _convert_names E (ArgOne (IVal (PStr s))) argname w
          = _convert_names E (ArgSeq [IVal (PStr s)]) argname
              {| log := log w ++ [WarnStrDeprecated argname];
                 outbox := outbox w |})
  ∧ (∀ x, x ≠ IVal PNone → (∀ s, x ≠ IVal (PStr s)) →
       _convert_names E (ArgOne x) argname w
       = (Raise (MailerException (NamesNotACollection argname)), w)).
Proof.
  split_and!; [done|done|].
  intros x Hnone Hstr. destruct x as [[|s| |]|]; try done.
  by destruct (Hstr s).
Qed.

(** X4: For a collection, _convert_names returns the strings of the valid items
    in order and logs one warning for each invalid item, so the number
    returned plus the number logged is the number of items. It sends
    nothing. *)
Theorem convert_names_accounts_for_every_item (E : Env) (argname : string)
    (names : list item) (w : world) r (w' : world) :
  _convert_names E (ArgSeq names) argname w = (Ok r, w') →
  r = Some (kept E names)
  ∧ log w' = log w ++ skipped E argname names
  ∧ outbox w' = outbox w
  ∧ length (kept E names) + length (skipped E argname names) = length names.
Proof.
  unfold _convert_names. erewrite bind_Ok by reflexivity. cbn beta iota.
  intros H. apply bind_Ok_inv in H as (l & w1 & Hloop & [= <- <-]).
  apply convert_loop_Ok in Hloop as (-> & -> & Hlen). done.
Qed.

(** X5: The message handed to the transport has a From field equal to the
    envelope sender and a Subject field equal to str(subject), or to the
    empty string when subject is None. *)
Theorem message_carries_from_and_subject (E : Env) (self : Mailer)
    (a : send_args) (w : world) (r : outcome (list string)) (w' : world)
    (f : string) (rc : list string) (m : mime) :
  send E self a w = (r, w') →
  outbox w' = outbox w ++ [(f, rc, m)] →
  ("From", f) ∈ headers_of m
  ∧ ("Subject", match subject a with
               | IVal PNone => ""
               | s => to_str E s
               end) ∈ headers_of m.
Proof.
  intros Hsend Hout.
  destruct (send_handoff_inv E _ _ _ _ _ _ _ _ Hsend Hout)
    as (p & w1 & m0 & Hp & Hc & Ha & -> & Hne & Hconn & ->).
  pose proof (assemble_header_headers p (header a) m0) as Hh.
  rewrite Ha in Hh. simpl in Hh. rewrite Hh.
  apply prepare_Ok_stages in Hp
    as (v1 & v2 & v3 & _ & _ & _ & _ & _ & <- & _).
  unfold computed_headers. set_solver.
Qed.

(** X6: When bcc holds a valid address, the message handed to the transport
    carries a Bcc header listing the bcc addresses joined by commas, and
    each of them is an envelope recipient. *)
Theorem bcc_is_written_to_the_message (E : Env) (self : Mailer)
    (a : send_args) (w : world) (r : outcome (list string)) (w' : world)
    (f : string) (rc : list string) (m : mime) :
  send E self a w = (r, w') →
  outbox w' = outbox w ++ [(f, rc, m)] →
  kept E (names_of (bcc a)) ≠ [] →
  ("Bcc", join "," (kept E (names_of (bcc a)))) ∈ headers_of m
  ∧ ∀ b, b ∈ kept E (names_of (bcc a)) → b ∈ rc.
Proof.
  intros Hsend Hout Hbcc.
  destruct (send_handoff_inv E _ _ _ _ _ _ _ _ Hsend Hout)
    as (p & w1 & m0 & Hp & Hc & Ha & -> & Hne & Hconn & ->).
  pose proof (assemble_header_headers p (header a) m0) as Hh.
  pose proof (assemble_header_recipients p (header a) m0) as Hr.
  rewrite Ha in Hh, Hr. simpl in Hh, Hr. rewrite Hh, Hr.
  apply prepare_Ok_stages in Hp as (v1 & v2 & v3 & _ & _ & Hb & _).
  apply convert_names_Ok in Hb as (Hb & _). rewrite <- Hb in *.
  unfold computed_headers, recipients, recipient_field.
  destruct (bcc' p) as [[|b0 l]|]; [done| |done]. simpl.
  split; [|intros b Hin; apply elem_of_cons in Hin];
    rewrite !elem_of_app, ?elem_of_cons; tauto.
Qed.

(** X7: On a Mailer that holds no connection, send never reaches the transport
    and always raises. When the message is complete and has recipients, the
    error is the AttributeError of calling sendmail on None. *)
Theorem not_connected_never_sends (E : Env) (self : Mailer) (a : send_args)
    (w : world) (r : outcome (list string)) (w' : world) :
  _conn self = false →
  send E self a w = (r, w') →
  outbox w' = outbox w
  ∧ (∃ e, r = Raise e)
  ∧ (∀ p w1 m0, prepare E self a w = (Ok p, w1) →
       compose p w1 = (Ok (Some m0), w1) →
       recipients p ≠ [] →
       r = Raise AttributeError).
Proof.
  intros Hconn Hsend.
  pose proof Hsend as Hsend'.
  apply send_outcomes in Hsend as [(e & -> & Hsame)|
    (p & w1 & m0 & m & rc & _ & _ & _ & _ & Hc & _)]; [|congruence].
  split_and!; [done|eauto|].
  intros p w1 m0 Hp Hc Hrec.
  rewrite (send_prepared _ _ _ _ _ _ Hp) in Hsend'. unfold deliver in Hsend'.
  erewrite bind_Ok in Hsend' by exact Hc. cbn beta iota in Hsend'.
  pose proof (assemble_header_recipients p (header a) m0) as Hr.
  destruct (assemble_header p (header a) m0) as [m' rc]. simpl in Hr. subst rc.
  destruct (recipients p); [done|].
  unfold sendmail in Hsend'. rewrite Hconn in Hsend'.
  by injection Hsend' as <- _.
Qed.

(** ** Addresses *)

Lemma append_empty_r (s1 s2 : string) : s1 +:+ s2 = "" → s2 = "".
Proof. destruct s1; [done|discriminate]. Qed.

Lemma char_in_append_r (c : ascii) (s1 s2 : string) :
  char_in c s2 = true → char_in c (s1 +:+ s2) = true.
Proof.
  intros H. induction s1 as [|a s1 IH]; simpl; [done|].
  by destruct (Ascii.eqb a c).
Qed.

Lemma str_valid_nonempty (E : Env) (ma : MailAddress) (s : string) :
  is_valid ma = true → __str__ E ma = Ok s → s ≠ "".
Proof.
  unfold __str__, is_valid.
  destruct (_address ma) as [address|]; [|done].
  destruct (String.eqb address "") eqn:Haddr; [done|].
  apply String.eqb_neq in Haddr. intros _.
  destruct (truthy (_name ma)).
  - destruct (_name ma) as [|name| |]; try done. intros [= <-] H.
    apply append_empty_r in H. discriminate H.
  - by intros [= <-].
Qed.

(** X8: str(MailAddress) is the empty string exactly when the address is
    invalid. A valid address without a name gives the bare address. *)
Theorem address_string_empty_iff_invalid (E : Env) (ma : MailAddress)
    (s : string) :
  __str__ E ma = Ok s →
  (s = "" ↔ is_valid ma = false)
  ∧ (is_valid ma = true → truthy (_name ma) = false → _address ma = Some s).
Proof.
  unfold __str__, is_valid.
  destruct (_address ma) as [address|]; [|by intros [= <-]].
  destruct (String.eqb address "") eqn:Haddr; [by intros [= <-]|].
  apply String.eqb_neq in Haddr. simpl.
  destruct (truthy (_name ma)).
  - destruct (_name ma) as [|name| |]; try done. intros [= <-].
    split; [|done]. split; [|done].
    intros H. apply append_empty_r in H. discriminate H.
  - intros [= <-]. split; [|done]. split; done.
Qed.

(** X9: For a dict the address is parsed from the first truthy value of the keys
    mail, email, e-mail, and otherwise from mailaddress; for a str it is
    parsed from the string. An object that is neither a str nor a dict is
    invalid. *)
Theorem extract_address_sources (E : Env) :
  (∀ o : dict,
     let address v := _address (_extract E (IDict o)) = Some (parseaddr E v).2 in
     (truthy (get o "mail") = true → address (get o "mail"))
     ∧ (truthy (get o "mail") = false → truthy (get o "email") = true →
        address (get o "email"))
     ∧ (truthy (get o "mail") = false → truthy (get o "email") = false →
        truthy (get o "e-mail") = true → address (get o "e-mail"))
     ∧ (truthy (get o "mail") = false → truthy (get o "email") = false →
        truthy (get o "e-mail") = false → address (get o "mailaddress")))
  ∧ (∀ s, _address (_extract E (IVal (PStr s))) = Some (parseaddr E (PStr s)).2)
  ∧ (∀ v, (∀ s, v ≠ PStr s) → is_valid (_extract E (IVal v)) = false).
Proof.
  split_and!.
  - intros o address. subst address. simpl. unfold py_or.
    split_and!; intros; repeat match goal with H : truthy _ = _ |- _ =>
                                 rewrite H; clear H end; done.
  - intros s. simpl. by destruct (parseaddr E (PStr s)).
  - intros v Hv. destruct v as [|s| |]; try done. by destruct (Hv s).
Qed.

(** X10: With from_addr None the sender is the login user, with @ and the host
    appended when the user holds no @, so it always contains @. A given
    from_addr that is invalid raises MailerException; a valid one gives its
    address string. *)
Theorem from_address_sources (E : Env) (self : Mailer) (w : world) :
  (∀ f w', derive_from E self (IVal PNone) w = (Ok f, w') →
     w' = w ∧ char_in "@" f = true
     ∧ ∃ user, _user self = Some user
               ∧ f = if char_in "@" user then user
                     else user +:+ "@" +:+ _host self)
  ∧ (∀ x, x ≠ IVal PNone → is_valid (_extract E x) = false →
       derive_from E self x w = (Raise (MailerException FromNotDerivable), w))
  ∧ (∀ x, x ≠ IVal PNone → is_valid (_extract E x) = true →
       derive_from E self x w = (__str__ E (_extract E x), w)).
Proof.
  split_and!.
  - intros f w'. unfold derive_from.
    destruct (_user self) as [user|]; [|done].
    destruct (char_in "@" user) eqn:Hat; simpl; intros [= <- <-].
    + split_and!; [done..|]. exists user. by rewrite Hat.
    + split_and!; [done| |].
      * by apply char_in_append_r.
      * exists user. by rewrite Hat.
  - intros x Hx Hv. unfold derive_from.
    destruct x as [[]|]; try done; by rewrite Hv.
  - intros x Hx Hv. unfold derive_from.
    destruct x as [[]|]; try done; by rewrite Hv.
Qed.

(** What [connect] leaves: the Mailer as it was when the constructor
    raises; the Mailer with a connection otherwise, also when [starttls]
    raises. *)
Lemma connect_cases (E : Env) (self : Mailer) :
  let connected :=
    {| _host := _host self; _port := _port self; _conn := true;
       _cipher := _cipher self; _user := _user self |} in
  (∃ e, connect E self = (self, Raise e))
  ∨ connect E self = (connected, Ok tt)
  ∨ (∃ e, _cipher self = START_TLS
          ∧ smtp_starttls E (_host self) (_port self) = Raise e
          ∧ connect E self = (connected, Raise e)).
Proof.
  unfold connect. cbn zeta.
  destruct (bool_decide (_cipher self = SSL)).
  - destruct (smtp_connect _ _ _ _) as [[]|e]; eauto.
  - destruct (smtp_connect _ _ _ _) as [[]|e]; [|eauto].
    destruct (bool_decide (_cipher self = START_TLS)) eqn:Htls; [|eauto].
    apply bool_decide_eq_true in Htls.
    destruct (smtp_starttls _ _ _) as [[]|e] eqn:Hs; eauto 10.
Qed.

(** X11: login connects first when there is no connection and stores the user
    before it authenticates, so the user stays stored when authentication
    fails and is then used as the sender. When connect raises, login raises
    the same error and stores no user; the Mailer is then as connect left
    it: unchanged, or holding the connection on which STARTTLS failed. *)
Theorem login_stores_user (E : Env) (self : Mailer) (user password : string) :
  let connected :=
    {| _host := _host self; _port := _port self; _conn := true;
       _cipher := _cipher self; _user := _user self |} in
  let stored :=
    {| _host := _host self; _port := _port self; _conn := true;
       _cipher := _cipher self; _user := Some user |} in
  (_conn self = true →
     login E self user password = (stored, smtp_login E user password))
  ∧ (_conn self = false → connect E self = (connected, Ok tt) →
     login E self user password = (stored, smtp_login E user password))
  ∧ (_conn self = false → ∀ self' e, connect E self = (self', Raise e) →
       login E self user password = (self', Raise e)
       ∧ _user self' = _user self
       ∧ (self' = self
          ∨ (self' = connected ∧ _cipher self = START_TLS
             ∧ smtp_starttls E (_host self) (_port self) = Raise e)))
  ∧ (∀ self' r, login E self user password = (self', r) →
       _user self' = Some user
       ∨ (_user self' = _user self ∧ ∃ e, r = Raise e))
  ∧ (∀ self' r w, login E self user password = (self', r) →
       _user self' = Some user →
       derive_from E self' (IVal PNone) w
       = (Ok (if char_in "@" user then user
              else user +:+ "@" +:+ _host self), w)).
Proof.
  cbn zeta.
  assert (∀ self' r, connect E self = (self', r) →
            _host self' = _host self ∧ _user self' = _user self) as Hkeeps.
  { intros self' r H.
    destruct (connect_cases E self) as [[e He]|[He|(e & _ & _ & He)]];
      rewrite He in H; by injection H as <- <-. }
  unfold login. split_and!.
  - intros Hc. rewrite Hc. simpl. by rewrite Hc.
  - intros Hc He. by rewrite Hc, He.
  - intros Hc self' e He. rewrite Hc, He. split; [done|].
    split; [by apply (Hkeeps self' (Raise e))|].
    destruct (connect_cases E self) as [[e' He']|[He'|(e' & Ht & Hs & He')]];
      rewrite He' in He; [|done|].
    + injection He as <- <-. by left.
    + injection He as <- <-. by right.
  - intros self' r.
    destruct (if _conn self then (self, Ok tt) else connect E self)
      as [s [[]|e]] eqn:Hs.
    + intros [= <- <-]. by left.
    + intros [= <- <-]. right. split; [|eauto].
      destruct (_conn self); [by injection Hs as <-|].
      by apply (Hkeeps s (Raise e)).
  - intros self' r w.
    destruct (if _conn self then (self, Ok tt) else connect E self)
      as [s [[]|e]] eqn:Hs.
    + intros [= <- <-] _. unfold derive_from. simpl.
      assert (_host s = _host self) as ->.
      { destruct (_conn self); [by injection Hs as <-|].
        by apply (Hkeeps s (Ok tt)). }
      by destruct (char_in "@" user).
    + intros [= <- <-] Hu. unfold derive_from. rewrite Hu.
      assert (_host s = _host self) as ->.
      { destruct (_conn self); [by injection Hs as <-|].
        by apply (Hkeeps s (Raise e)). }
      by destruct (char_in "@" user).
Qed.

(** X12: A Mailer built without a cipher connects over SSL exactly on port 465
    and upgrades with STARTTLS exactly on ports 587 and 2525. A given cipher
    decides whatever the port. *)
Theorem connect_follows_port (E : Env) (host : string) (port : Z) :
  let opened (ssl starttls : bool) (cipher : Cipher) :=
    match smtp_connect E host port ssl with
    | Ok _ =>
        ({| _host := host; _port := port; _conn := true;
            _cipher := cipher; _user := None |},
         if starttls then smtp_starttls E host port else Ok tt)
    | Raise e =>
        ({| _host := host; _port := port; _conn := false;
            _cipher := cipher; _user := None |}, Raise e)
    end in
  (∀ cipher,
     connect E (Mailer_init host port (Some cipher))
     = opened (bool_decide (cipher = SSL)) (bool_decide (cipher = START_TLS))
         cipher)
  ∧ connect E (Mailer_init host port None)
    = opened (port =? 465)%Z ((port =? 587)%Z || (port =? 2525)%Z)
        (from_port port).
Proof.
  cbn zeta. split.
  - intros cipher. unfold connect, Mailer_init. simpl.
    destruct cipher; simpl; by destruct (smtp_connect _ _ _ _).
  - unfold connect, Mailer_init, from_port. simpl.
    destruct (port =? 587)%Z eqn:H1, (port =? 2525)%Z eqn:H2,
      (port =? 465)%Z eqn:H3; simpl; try lia;
      by destruct (smtp_connect _ _ _ _).
Qed.

Lemma recipient_field_key k l kv : kv ∈ recipient_field k l → kv.1 = k.
Proof.
  unfold recipient_field. destruct l as [[|? ?]|]; try by intros ?%elem_of_nil.
  by intros ->%list_elem_of_singleton.
Qed.

(** X13: An invalid reply_to is no error: deriving it returns None and logs a
    warning that names the sender address, and the message send hands over
    has no Reply-To field but one the caller gave in header. A valid
    reply_to becomes the Reply-To field of the message handed over. *)
Theorem reply_to_is_optional (E : Env) (self : Mailer) (a : send_args)
    (w : world) :
  reply_to a ≠ IVal PNone →
  (is_valid (_extract E (reply_to a)) = false →
     (∀ f w0, derive_reply_to E (reply_to a) f w0
              = (Ok None, {| log := log w0 ++ [WarnReplyToInvalid f];
                             outbox := outbox w0 |}))
     ∧ (∀ r w' f rc m, send E self a w = (r, w') →
          outbox w' = outbox w ++ [(f, rc, m)] →
          WarnReplyToInvalid f ∈ log w'
          ∧ ∀ v, ("Reply-To", v) ∈ headers_of m → ("Reply-To", v) ∈ header a))
  ∧ (is_valid (_extract E (reply_to a)) = true →
     ∀ r w' f rc m, send E self a w = (r, w') →
       outbox w' = outbox w ++ [(f, rc, m)] →
       ∃ s, __str__ E (_extract E (reply_to a)) = Ok s
            ∧ ("Reply-To", s) ∈ headers_of m).
Proof.
  intros Hsome.
  assert (∀ f, derive_reply_to E (reply_to a) f
               = if negb (is_valid (_extract E (reply_to a)))
                 then _ ← warning (WarnReplyToInvalid f); mret None
                 else s ← lift (__str__ E (_extract E (reply_to a)));
                      mret (Some s)) as Hderive.
  { intros f. unfold derive_reply_to. destruct (reply_to a) as [[]|]; done. }
  assert (∀ r w' f rc m, send E self a w = (r, w') →
            outbox w' = outbox w ++ [(f, rc, m)] →
            ∃ p w3 w1,
              derive_reply_to E (reply_to a) f w3 = (Ok (reply_to' p), w1)
              ∧ log w' = log w1
              ∧ headers_of m = computed_headers p ++ header a)
    as Hsent.
  { intros r w' f rc m Hsend Hout.
    apply send_outcomes in Hsend as [(e & -> & Hsame)|
      (p & w1 & m0 & m' & rc' & Hp & Hc & Ha & Hne & Hconn & -> & ->)].
    { rewrite Hsame in Hout. apply (f_equal length) in Hout.
      rewrite length_app in Hout. simpl in Hout. lia. }
    simpl in Hout. apply app_inv_head in Hout. injection Hout as <- <- <-.
    pose proof Hp as (Hpt & Hph & _)%prepare_Ok_inv.
    pose proof (assemble_header_headers p (header a) m0) as Hh.
    rewrite Ha in Hh. simpl in Hh.
    rewrite (compose_root_headers E p a _ _ _ Hpt Hph Hc) in Hh.
    apply prepare_Ok_stages in Hp
      as (v1 & v2 & v3 & _ & _ & _ & _ & Hr & _).
    exists p, v3, w1. done. }
  split.
  - intros Hv. split.
    + intros f w0. rewrite Hderive, Hv. reflexivity.
    + intros r w' f rc m Hsend Hout.
      destruct (Hsent _ _ _ _ _ Hsend Hout) as (p & w3 & w1 & Hr & -> & ->).
      rewrite Hderive, Hv in Hr. injection Hr as Hrt <-. simpl. split.
      * apply elem_of_app. right. by apply list_elem_of_singleton.
      * intros v Hin. apply elem_of_app in Hin as [Hin|Hin]; [|done].
        exfalso. unfold computed_headers in Hin. rewrite <- Hrt in Hin.
        rewrite !elem_of_app in Hin.
        destruct Hin as [Hin|[Hin|[Hin|[Hin|Hin]]]];
          try (apply recipient_field_key in Hin; discriminate Hin).
        { by apply elem_of_nil in Hin. }
        apply elem_of_cons in Hin as [Hin|Hin]; [discriminate Hin|].
        apply list_elem_of_singleton in Hin. discriminate Hin.
  - intros Hv r w' f rc m Hsend Hout.
    destruct (Hsent _ _ _ _ _ Hsend Hout) as (p & w3 & w1 & Hr & _ & ->).
    rewrite Hderive, Hv in Hr. simpl in Hr.
    apply bind_Ok_inv in Hr as (s & w4 & Hs & [= Hrt _]).
    unfold lift in Hs. injection Hs as Hs _.
    exists s. split; [done|].
    pose proof (str_valid_nonempty E _ _ Hv Hs) as Hne.
    apply String.eqb_neq in Hne.
    apply elem_of_app. left. unfold computed_headers.
    rewrite <- Hrt, Hne.
    rewrite !elem_of_app. do 3 right. left. by apply list_elem_of_singleton.
Qed.

(** ** Attachments *)

Lemma split_no_sep (c : ascii) (s : string) :
  Forall (λ x, char_in c x = false) (split c s).
Proof.
  induction s as [|a s IH]; simpl; [by repeat constructor|].
  destruct (Ascii.eqb a c) eqn:Hac; [by constructor|].
  destruct (split c s) as [|h t]; [by repeat constructor; simpl; rewrite Hac|].
  inversion_clear IH. constructor; [|done]. simpl. by rewrite Hac.
Qed.

Lemma basename_no_slash (p : string) : char_in "/" (basename p) = false.
Proof.
  unfold basename. pose proof (split_no_sep "/" p) as H.
  induction (split "/" p) as [|x l IH]; [done|].
  inversion_clear H. destruct l; [done|]. auto.
Qed.

Lemma split_hd (c : ascii) (s : string) :
  char_in c s = true →
  char_in c (hd "" (split c s)) = false
  ∧ ∃ rest, s = hd "" (split c s) +:+ String c rest.
Proof.
  induction s as [|a s IH]; simpl; [done|].
  destruct (Ascii.eqb a c) eqn:Hac.
  - apply Ascii.eqb_eq in Hac as ->. intros _. split; [done|]. by exists s.
  - intros Hin. destruct (IH Hin) as (Hno & rest & Hrest).
    destruct (split c s) as [|h t]; simpl in *; rewrite Hac;
      (split; [done|]); exists rest; exact (f_equal (String a) Hrest).
Qed.

(** X14: An attachment given as bytes, or as a dict with data and neither type
    nor name, becomes an application/octet-stream part named Unnamed
    attachment <i>.dat with the matching Content-Disposition. Data given as
    str is encoded as UTF-8. *)
Theorem bare_data_attachment (E : Env) (i : nat) (w : world) :
  let name := "Unnamed attachment " +:+ pretty i +:+ ".dat" in
  let part payload :=
    attachment_disposition name
      (MIMEAnyType "application" "octet-stream" name payload []) in
  (∀ b, build_attachment E i (IVal (PBytes b)) w = (Ok (part b), w))
  ∧ (∀ (d : dict) b, d !! "data" = Some (PBytes b) →
       d !! "type" = None → d !! "name" = None →
       build_attachment E i (IDict d) w = (Ok (part b), w))
  ∧ (∀ (d : dict) s, d !! "data" = Some (PStr s) →
       d !! "type" = None → d !! "name" = None →
       build_attachment E i (IDict d) w
       = (Ok (part (list_byte_of_string s)), w)).
Proof.
  intros name part.
  assert (∀ (d : dict) v b, d !! "data" = Some v →
            d !! "type" = None → d !! "name" = None →
            match v with
            | PStr s => PBytes (list_byte_of_string s)
            | _ => v
            end = PBytes b →
            build_attachment E i (IDict d) w = (Ok (part b), w)) as H.
  { intros d v b Hd Ht Hn Hv. unfold build_attachment. rewrite Hd.
    unfold attachment_from_data, data_attachment_type, data_attachment_name.
    rewrite Ht, Hn. simpl.
    erewrite bind_Ok by reflexivity. erewrite bind_Ok by reflexivity.
    simpl. rewrite Hv. by erewrite bind_Ok by reflexivity. }
  split_and!.
  - intros b. apply (H {[ "data" := PBytes b ]} (PBytes b) b); done.
  - intros d b Hd Ht Hn. by apply (H d (PBytes b) b).
  - intros d s Hd Ht Hn. by apply (H d (PStr s) (list_byte_of_string s)).
Qed.

(** X15: An attachment given as a path raises MailerException when the path is
    no file. Otherwise the part holds the files content, is named by the
    basename of the path, which holds no slash, and is typed by the guess
    from the path. *)
Theorem path_attachment (E : Env) (i : nat) (path : string) (w : world) :
  (isfile E path = false →
     build_attachment E i (IVal (PStr path)) w
     = (Raise (MailerException (AttachmentFileMissing i path)), w))
  ∧ (isfile E path = true →
     ∀ maintype subtype,
       split_type (opt_str (guess_type E path)) w = (Ok (maintype, subtype), w) →
       build_attachment E i (IVal (PStr path)) w
       = match read_file E path with
         | Ok content =>
             (Ok (attachment_disposition (basename path)
                    (MIMEAnyType maintype subtype (basename path) content [])),
              w)
         | Raise e => (Raise e, w)
         end)
  ∧ char_in "/" (basename path) = false
  ∧ kind_of (AttachmentFileMissing i path) = FileNotFound.
Proof.
  assert (build_attachment E i (IVal (PStr path)) w
          = attachment_from_file E i {[ "file" := PStr path ]} (PStr path) w)
    as ->.
  { unfold build_attachment. by rewrite lookup_singleton_ne, lookup_singleton_eq. }
  unfold attachment_from_file. erewrite bind_Ok by reflexivity. cbn beta.
  split_and!; [| |apply basename_no_slash|done].
  - by intros ->.
  - intros -> mt st Hsplit. simpl.
    rewrite !lookup_singleton_ne by done. simpl.
    erewrite bind_Ok by exact Hsplit. simpl.
    destruct (read_file E path) as [content|e].
    + erewrite bind_Ok by reflexivity. by erewrite bind_Ok by reflexivity.
    + by erewrite bind_Raise by reflexivity.
Qed.

(** X16: An attachment that is neither str, bytes nor dict, and a dict with none
    of data, file and url, raise MailerException. In a dict, data wins over
    file and url, and file wins over url. *)
Theorem attachment_shapes (E : Env) (i : nat) (w : world) :
  (∀ v, (∀ s, v ≠ PStr s) → (∀ b, v ≠ PBytes b) →
     build_attachment E i (IVal v) w
     = (Raise (MailerException (AttachmentWrongType i)), w))
  ∧ (∀ d : dict, d !! "data" = None → d !! "file" = None → d !! "url" = None →
       build_attachment E i (IDict d) w
       = (Raise (MailerException AttachmentNoSource), w))
  ∧ (∀ d : dict, is_Some (d !! "data") →
       build_attachment E i (IDict d) w
       = build_attachment E i (IDict (delete "file" (delete "url" d))) w)
  ∧ (∀ d : dict, d !! "data" = None → is_Some (d !! "file") →
       build_attachment E i (IDict d) w
       = build_attachment E i (IDict (delete "url" d)) w).
Proof.
  split_and!.
  - intros v Hs Hb. destruct v as [|s|b|]; try done.
    + by destruct (Hs s).
    + by destruct (Hb b).
  - intros d Hd Hf Hu. unfold build_attachment. by rewrite Hd, Hf, Hu.
  - intros d [v Hd]. unfold build_attachment.
    rewrite !lookup_delete_ne by done. rewrite Hd.
    unfold attachment_from_data, data_attachment_type, data_attachment_name.
    by rewrite !lookup_delete_ne by done.
  - intros d Hd [v Hf]. unfold build_attachment.
    rewrite !lookup_delete_ne by done. rewrite Hd, Hf.
    unfold attachment_from_file.
    by rewrite !lookup_delete_ne by done.
Qed.

(** The url branch of the attachment loop, once the response is there and
    the type is split. *)
(** X17: A url attachment is named by its name key, else by the filename of the
    response, else by the basename of the URL path. An empty name is
    replaced by Unnamed attachment <i> followed by the guessed extension, or
    .dat. *)
Theorem remote_attachment_name (E : Env) (i : nat) (d : dict) (url : string)
    (response : http_response) (w : world) (maintype subtype : string) :
  d !! "data" = None → d !! "file" = None → d !! "url" = Some (PStr url) →
  urlopen E url = FetchOk response →
  split_type (url_attachment_type d response) w = (Ok (maintype, subtype), w) →
  let built name :=
    build_attachment E i (IDict d) w
    = (Ok (attachment_disposition name
             (MIMEAnyType maintype subtype name (read response) [])), w) in
  let placeholder :=
    "Unnamed attachment " +:+ pretty i +:+
    default ".dat" (guess_extension E (maintype +:+ "/" +:+ subtype)) in
  (∀ n, d !! "name" = Some (PStr n) → n ≠ "" → built n)
  ∧ (d !! "name" = Some (PStr "") → built placeholder)
  ∧ (∀ f, d !! "name" = None → get_filename response = Some f → f ≠ "" →
       built f)
  ∧ (d !! "name" = None → get_filename response = Some "" → built placeholder)
  ∧ (d !! "name" = None → get_filename response = None →
     built (if String.eqb (url_path_basename E url) "" then placeholder
            else url_path_basename E url)).
Proof.
  intros Hd Hf Hu Hopen Hsplit built placeholder. subst built.
  assert (build_attachment E i (IDict d) w
          = attachment_from_url E i d (PStr url) w) as ->.
  { unfold build_attachment. by rewrite Hd, Hf, Hu. }
  rewrite (attachment_from_url_Ok E i d url response w _ _ Hopen Hsplit).
  split_and!.
  - intros n -> Hn. simpl. apply String.eqb_neq in Hn. rewrite Hn. simpl.
    by erewrite bind_Ok by reflexivity.
  - intros ->. simpl. by erewrite bind_Ok by reflexivity.
  - intros f -> -> Hn. simpl. apply String.eqb_neq in Hn. rewrite Hn. simpl.
    by erewrite bind_Ok by reflexivity.
  - intros -> ->. simpl. by erewrite bind_Ok by reflexivity.
  - intros -> ->. simpl.
    destruct (String.eqb (url_path_basename E url) ""); simpl;
      by erewrite bind_Ok by reflexivity.
Qed.

(** X18: An HTTPError while fetching the url of an attachment or of an inline
    element raises MailerException with the URL and the reason. Any other
    error of urlopen propagates unchanged. *)
Theorem download_errors (E : Env) (i : nat) (d : dict) (url : string)
    (w : world) :
  d !! "data" = None → d !! "file" = None → d !! "url" = Some (PStr url) →
  (∀ reason, urlopen E url = FetchHTTPError reason →
     build_attachment E i (IDict d) w
     = (Raise (MailerException (DownloadFailed url reason)), w)
     ∧ (∀ cid, d !! "cid" = Some (PStr cid) → char_in "@" cid = true →
          build_inline E i (IDict d) w
          = (Raise (MailerException (DownloadFailed url reason)), w))
     ∧ kind_of (DownloadFailed url reason) = DownloadError reason)
  ∧ (∀ e, urlopen E url = FetchError e →
       build_attachment E i (IDict d) w = (Raise e, w)
       ∧ (∀ cid, d !! "cid" = Some (PStr cid) → char_in "@" cid = true →
            build_inline E i (IDict d) w = (Raise e, w))).
Proof.
  intros Hd Hf Hu.
  assert (∀ err, (∀ w0, attachment_from_url E i d (PStr url) w0 = (Raise err, w0)) →
            build_attachment E i (IDict d) w = (Raise err, w)) as Hatt.
  { intros err H. unfold build_attachment. by rewrite Hd, Hf, Hu. }
  assert (∀ err cid,
            (∀ n w0, inline_from_url E d n (PStr url) w0 = (Raise err, w0)) →
            d !! "cid" = Some (PStr cid) → char_in "@" cid = true →
            build_inline E i (IDict d) w = (Raise err, w)) as Hinl.
  { intros err cid H Hcid Hat. unfold build_inline.
    rewrite Hcid, Hat, Hd, Hf, Hu. simpl. by erewrite bind_Raise by apply H. }
  split.
  - intros reason Hopen. split_and!; [| |done].
    + apply Hatt. intros w0. unfold attachment_from_url.
      erewrite bind_Ok by reflexivity. cbn beta. by rewrite Hopen.
    + intros cid. apply Hinl. intros n w0. unfold inline_from_url.
      erewrite bind_Ok by reflexivity. cbn beta. by rewrite Hopen.
  - intros e Hopen. split.
    + apply Hatt. intros w0. unfold attachment_from_url.
      erewrite bind_Ok by reflexivity. cbn beta. by rewrite Hopen.
    + intros cid. apply Hinl. intros n w0. unfold inline_from_url.
      erewrite bind_Ok by reflexivity. cbn beta. by rewrite Hopen.
Qed.

(** ** The loops over attachments and inline elements *)

Lemma build_parts_Ok_lookup build xs :
  (∀ i x, silent (build i x)) →
  ∀ i parts w ps w',
    build_parts build i xs parts w = (Ok ps, w') →
    w' = w
    ∧ ∃ new, ps = parts ++ new ∧ length new = length xs
             ∧ ∀ k x, xs !! k = Some x →
                 ∃ part, new !! k = Some part
                         ∧ build (i + k) x w = (Ok part, w).
Proof.
  intros Hs. induction xs as [|x xs IH]; intros i parts w ps w'; simpl.
  - intros [= <- <-]. split; [done|]. exists []. rewrite app_nil_r.
    split_and!; [done..|]. intros k x Hk. by rewrite lookup_nil in Hk.
  - intros H. apply bind_Ok_inv in H as (part & w1 & Hpart & H).
    pose proof (Hs _ _ _ _ _ Hpart) as ->.
    apply IH in H as (-> & new & -> & Hlen & Hnew).
    split; [done|]. exists (part :: new). rewrite <- app_assoc.
    split_and!; [done|simpl; lia|].
    intros [|k] y Hk; simpl in *.
    + injection Hk as <-. exists part. by rewrite Nat.add_0_r.
    + destruct (Hnew k y Hk) as (part' & Hl & Hb). exists part'.
      split; [done|]. by rewrite <- Nat.add_succ_comm.
Qed.

Lemma build_parts_Raise build :
  (∀ i x, silent (build i x)) →
  ∀ pre i parts w x post e,
    (∀ k y, pre !! k = Some y → ∃ part, build (i + k) y w = (Ok part, w)) →
    build (i + length pre) x w = (Raise e, w) →
    build_parts build i (pre ++ x :: post) parts w = (Raise e, w).
Proof.
  intros Hs. induction pre as [|y pre IH]; intros i parts w x post e Hpre Hx;
    simpl in *.
  - rewrite Nat.add_0_r in Hx. by erewrite bind_Raise by exact Hx.
  - destruct (Hpre 0 y eq_refl) as [part Hpart]. rewrite Nat.add_0_r in Hpart.
    erewrite bind_Ok by exact Hpart. apply IH.
    + intros k z Hk. destruct (Hpre (S k) z Hk) as [p Hp]. exists p.
      by rewrite Nat.add_succ_comm.
    + by rewrite Nat.add_succ_comm.
Qed.

(** X19: When the arguments pass the checks, there is one attachment part for
    each attachment item and one inline part for each inline item; the k-th
    part is built from the k-th item with index k. *)
Theorem parts_follow_items (E : Env) (self : Mailer) (a : send_args)
    (w : world) (p : prepared) (w' : world) :
  prepare E self a w = (Ok p, w') →
  length (attachment_parts p) = length (items_of (attachments a))
  ∧ (∀ k x, items_of (attachments a) !! k = Some x →
       ∃ part, attachment_parts p !! k = Some part
               ∧ build_attachment E k x w' = (Ok part, w'))
  ∧ length (inline_parts p) = length (items_of (inlines a))
  ∧ (∀ k x, items_of (inlines a) !! k = Some x →
       ∃ part, inline_parts p !! k = Some part
               ∧ build_inline E k x w' = (Ok part, w')).
Proof.
  intros Hp.
  apply prepare_Ok_stages in Hp
    as (w1 & w2 & w3 & _ & _ & _ & _ & _ & _ & Ha & Hi).
  apply (build_parts_Ok_lookup _ _ (silent_build_attachment E)) in Ha
    as (_ & na & -> & Hla & Ha).
  apply (build_parts_Ok_lookup _ _ (silent_build_inline E)) in Hi
    as (_ & ni & -> & Hli & Hi).
  simpl. split_and!; done.
Qed.

(** X20: The attachment loop and the inline loop raise the error of the first
    item that fails, whatever follows it. *)
Theorem loops_stop_at_first_failure (E : Env) (w : world) (pre : list item)
    (x : item) (post : list item) (e : exn) :
  ((∀ k y, pre !! k = Some y →
      ∃ part, build_attachment E k y w = (Ok part, w)) →
   build_attachment E (length pre) x w = (Raise e, w) →
   build_parts (build_attachment E) 0 (pre ++ x :: post) [] w = (Raise e, w))
  ∧ ((∀ k y, pre !! k = Some y →
        ∃ part, build_inline E k y w = (Ok part, w)) →
     build_inline E (length pre) x w = (Raise e, w) →
     build_parts (build_inline E) 0 (pre ++ x :: post) [] w = (Raise e, w)).
Proof.
  split; intros Hpre Hx.
  - by apply (build_parts_Raise _ (silent_build_attachment E)).
  - by apply (build_parts_Raise _ (silent_build_inline E)).
Qed.

(** X21: attachments that is no collection is ignored when it is falsy, and is
    otherwise handled as the list of that one item. *)
Theorem single_attachment_is_wrapped (E : Env) (self : Mailer) (a : send_args)
    (w : world) (p : prepared) (w' : world) (x : item) :
  prepare E self a w = (Ok p, w') →
  attachments a = ArgOne x →
  (item_truthy x = false → attachment_parts p = [])
  ∧ (item_truthy x = true →
     ∃ part, attachment_parts p = [part]
             ∧ build_attachment E 0 x w' = (Ok part, w')).
Proof.
  intros Hp Hx.
  apply prepare_Ok_stages in Hp
    as (w1 & w2 & w3 & _ & _ & _ & _ & _ & _ & Ha & _).
  rewrite Hx in Ha. simpl in Ha. split; intros Ht; rewrite Ht in Ha.
  - by injection Ha as <-.
  - simpl in Ha. apply bind_Ok_inv in Ha as (part & w4 & Hpart & [= <- <-]).
    eauto.
Qed.

(** ** Inline elements *)

Lemma name_of_add_header k v m : name_of (add_header k v m) = name_of m.
Proof. by destruct m. Qed.

(** X22: An inline part built from data or from a file is named by the part of
    the cid before its first @. Built from a url it is named by the filename
    of the response or the basename of the URL path, and by the cid part
    when that name is empty. *)
Theorem inline_part_name (E : Env) (i : nat) (d : dict) (cid : string)
    (w : world) (part : mime) (w' : world) :
  d !! "cid" = Some (PStr cid) → char_in "@" cid = true →
  build_inline E i (IDict d) w = (Ok part, w') →
  let local := hd "" (split "@" cid) in
  char_in "@" local = false
  ∧ (∃ rest, cid = local +:+ "@" +:+ rest)
  ∧ (is_Some (d !! "data") ∨ is_Some (d !! "file") → name_of part = local)
  ∧ (d !! "data" = None → d !! "file" = None →
     ∀ url response, d !! "url" = Some (PStr url) →
       urlopen E url = FetchOk response →
       name_of part
       = let req_name :=
           default (url_path_basename E url) (get_filename response) in
         if String.eqb req_name "" then local else req_name).
Proof.
  intros Hcid Hat Hbuild local.
  destruct (split_hd "@" cid Hat) as (Hno & rest & Hrest).
  split_and!; [done|by exists rest| |].
  - unfold build_inline in Hbuild. rewrite Hcid, Hat in Hbuild.
    simpl in Hbuild.
    apply bind_Ok_inv in Hbuild as (part0 & w1 & Hpart & [= <- _]).
    rewrite !name_of_add_header. intros Hsrc.
    destruct (d !! "data") as [i_data|].
    { unfold inline_from_data in Hpart. destruct i_data as [| |b|]; try done.
      by apply bind_Ok_inv in Hpart as ([mt st] & w2 & _ & [= <- _]). }
    destruct (d !! "file") as [i_file|].
    { unfold inline_from_file in Hpart.
      apply bind_Ok_inv in Hpart as (f & w2 & _ & Hpart).
      destruct (negb (isfile E f)); [done|].
      apply bind_Ok_inv in Hpart as ([mt st] & w3 & _ & Hpart).
      by apply bind_Ok_inv in Hpart as (c & w4 & _ & [= <- _]). }
    destruct Hsrc as [[? ?]|[? ?]]; done.
  - intros Hd Hf url response Hu Hopen.
    unfold build_inline in Hbuild. rewrite Hcid, Hat, Hd, Hf, Hu in Hbuild.
    simpl in Hbuild.
    apply bind_Ok_inv in Hbuild as (part0 & w1 & Hpart & [= <- _]).
    rewrite !name_of_add_header. unfold inline_from_url in Hpart.
    apply bind_Ok_inv in Hpart as (u & w2 & [= <- <-] & Hpart).
    rewrite Hopen in Hpart.
    apply bind_Ok_inv in Hpart as ([mt st] & w3 & _ & [= <- _]). simpl.
    by destruct (String.eqb _ "").
Qed.

(** ** The tree with attachments *)

(** X23: With attachments the message is multipart/mixed: first the body if
    there is one, or the multipart/related of body and inline parts, then
    the attachment parts in order. Inline parts without a body raise
    MailerException also then. *)
Theorem attachments_wrap_mixed (p : prepared) (w : world) :
  attachment_parts p ≠ [] →
  let body := compose_body (plaintext_part p) (html_part p) in
  (inline_parts p = [] →
     compose p w
     = (Ok (Some (MIMEMultipart "mixed"
                    (option_list body ++ attachment_parts p) [])), w))
  ∧ (inline_parts p ≠ [] → ∀ b, body = Some b →
     compose p w
     = (Ok (Some (MIMEMultipart "mixed"
                    (MIMEMultipart "related" (b :: inline_parts p) []
                     :: attachment_parts p) [])), w))
  ∧ (inline_parts p ≠ [] → body = None →
     compose p w = (Raise (MailerException InlineWithoutBody), w)).
Proof.
  intros Ha body. subst body. unfold compose, compose_content, compose_message.
  destruct (attachment_parts p) as [|ap aps]; [done|].
  split_and!.
  - intros ->. erewrite bind_Ok by reflexivity. cbn beta.
    destruct (compose_body _ _); simpl; by rewrite attach_all_multipart.
  - intros Hi b ->. destruct (inline_parts p) as [|ip ips]; [done|].
    erewrite bind_Ok by reflexivity. cbn beta. simpl attach.
    by rewrite !attach_all_multipart.
  - intros Hi ->. by destruct (inline_parts p).
Qed.

(** * libreoffice.py *)

Section LibreOfficeFacts.
Import LibreOffice.
Context (E : LibreOffice.Env).

Lemma F_bind_Ok {A B} (c : F A) (k : A → F B) w a w' :
  c w = (Ok a, w') → (c ≫= k) w = k a w'.
Proof. intros H. unfold mbind, F_bind, bind. by rewrite H. Qed.

Lemma F_bind_Raise {A B} (c : F A) (k : A → F B) w e w' :
  c w = (Raise e, w') → (c ≫= k) w = (Raise e, w').
Proof. intros H. unfold mbind, F_bind, bind. by rewrite H. Qed.

Lemma free_port_loop_spec (fuel : nat) : ∀ p : N,
  size (filter (λ q, (p ≤ q)%N) (listener E)) < fuel →
  ∃ r, free_port_loop E fuel p = Some r
       ∧ (p ≤ r)%N ∧ (r ∉ listener E)
       ∧ ∀ q, (p ≤ q)%N → (q < r)%N → q ∈ listener E.
Proof.
  induction fuel as [|fuel IH]; intros p Hsize; [lia|]. simpl.
  case_bool_decide as Hin.
  - destruct (IH (p + 1)%N) as (r & Hr & Hle & Hfree & Hbusy).
    { assert (filter (λ q, (p + 1 ≤ q)%N) (listener E)
              ⊂ filter (λ q, (p ≤ q)%N) (listener E)) as Hsub.
      { split.
        - intros q [Hq ?]%elem_of_filter. apply elem_of_filter. split; [lia|done].
        - intros Hback. assert (p ∈ filter (λ q, (p + 1 ≤ q)%N) (listener E))
            as [Hp _]%elem_of_filter; [|lia].
          apply Hback, elem_of_filter. split; [lia|done]. }
      apply subset_size in Hsub. lia. }
    exists r. split_and!; [done|lia|done|].
    intros q Hq1 Hq2. destruct (decide (q = p)) as [->|Hne]; [done|].
    apply Hbusy; lia.
  - exists p. split_and!; [done|lia|done|]. intros q; lia.
Qed.



(** X24: __getFreePort terminates and returns the least port from start on which
    no connection listens. *)
Theorem free_port_is_least_free (start : N) :
  ∃ port,
    __getFreePort E start = Some port
    ∧ (start ≤ port)%N
    ∧ (∀ e, e ∈ net_connections E →
         status e = "LISTEN" → laddr_port e ≠ port)
    ∧ (∀ q, (start ≤ q)%N → (q < port)%N →
         ∃ e, e ∈ net_connections E
              ∧ status e = "LISTEN"
              ∧ laddr_port e = q).
Proof.
  destruct (free_port_loop_spec (S (size (listener E))) start)
    as (r & Hr & Hle & Hfree & Hbusy).
  { assert (filter (λ q, (start ≤ q)%N) (listener E)
            ⊆ listener E) as Hsub.
    { intros q [_ ?]%elem_of_filter. done. }
    apply subseteq_size in Hsub. lia. }
  exists r. split_and!; [done..| |].
  - intros e He Hs Hp. apply Hfree. unfold listener.
    apply elem_of_list_to_set, list_elem_of_fmap. exists e. split; [done|].
    apply list_elem_of_In, filter_In. split; [by apply list_elem_of_In|].
    by apply String.eqb_eq.
  - intros q Hq1 Hq2. specialize (Hbusy q Hq1 Hq2).
    unfold listener in Hbusy.
    apply elem_of_list_to_set, list_elem_of_fmap in Hbusy as (e & -> & He).
    apply list_elem_of_In, filter_In in He as [He Hs].
    exists e. split_and!; [by apply list_elem_of_In|by apply String.eqb_eq|done].
Qed.

(** X25: makeTmpFile writes the content of a readable object, or the bytes of a
    str, to a new temporary file and returns its name. A str that names an
    existing file raises NameError (openfile is not defined), and any other
    input raises NameError (obj is not defined); both leave the empty
    temporary file. *)
Theorem makeTmpFile_outcomes (suffix prefix : string) (w : world) :
  let name := temp_name E suffix prefix (files w) in
  let left content :=
    {| files := <[name := content]> (files w);
       stdout := stdout w;
       calls := calls w |} in
  (∀ content,
     makeTmpFile E (InFile content) suffix prefix w
     = (Ok name, left content))
  ∧ (∀ s, char_in "000" s = true
          ∨ (files w !! s = None ∧ s ≠ name) →
       makeTmpFile E (InStr s) suffix prefix w
       = (Ok name, left (list_byte_of_string s)))
  ∧ (∀ s, char_in "000" s = false → is_Some (files w !! s) →
       makeTmpFile E (InStr s) suffix prefix w
       = (Raise (NameError "openfile"), left []))
  ∧ makeTmpFile E InOther suffix prefix w
    = (Raise (NameError "obj"), left []).
Proof.
  intros name left.
  assert (NamedTemporaryFile E suffix prefix w
          = (Ok name, left [])) as Hnew by done.
  unfold makeTmpFile. split_and!.
  - intros content. erewrite F_bind_Ok by exact Hnew.
    erewrite F_bind_Ok by reflexivity. subst left. simpl.
    by rewrite insert_insert_eq.
  - intros s Hs. erewrite F_bind_Ok by exact Hnew.
    assert (negb (char_in "000" s)
            && bool_decide (is_Some (<[name := []]> (files w) !! s))
            = false) as Hcond.
    { destruct Hs as [->|[Hnone Hne]]; [done|].
      rewrite lookup_insert_ne, Hnone by done.
      rewrite bool_decide_eq_false_2; [by rewrite andb_false_r|].
      by intros [? ?]. }
    erewrite F_bind_Ok.
    2:{ subst left. simpl. rewrite Hcond. reflexivity. }
    simpl. by rewrite insert_insert_eq.
  - intros s Hnul Hfile. erewrite F_bind_Ok by exact Hnew.
    erewrite F_bind_Raise; [reflexivity|].
    subst left. simpl. rewrite Hnul. simpl.
    rewrite bool_decide_eq_true_2; [done|].
    destruct (decide (name = s)) as [->|Hne].
    + rewrite lookup_insert_eq. eauto.
    + by rewrite lookup_insert_ne.
  - erewrite F_bind_Ok by exact Hnew. by erewrite F_bind_Raise by reflexivity.
Qed.

(** X26: odt2pdf given the name of an existing file, or an input that is neither
    a str nor a readable object, raises NameError before unoconv is started
    and leaves an empty .odt temporary file. *)
Theorem odt2pdf_rejects_file_names (w : world) :
  let left :=
    {| files :=
         <[temp_name E ".odt" "" (files w) := []]>
           (files w);
       stdout := stdout w;
       calls := calls w |} in
  (∀ s, char_in "000" s = false → is_Some (files w !! s) →
     odt2pdf E (InStr s) w
     = (Raise (NameError "openfile"), left))
  ∧ odt2pdf E InOther w
    = (Raise (NameError "obj"), left).
Proof.
  intros left. unfold odt2pdf, __genericConverter.
  assert (NamedTemporaryFile E ".odt" "" w
          = (Ok
               (temp_name E ".odt" "" (files w)),
             left)) as Hnew by done.
  split.
  - intros s Hnul Hfile. erewrite F_bind_Raise; [reflexivity|].
    unfold makeTmpFile. erewrite F_bind_Ok by exact Hnew.
    erewrite F_bind_Raise; [reflexivity|].
    subst left. simpl. rewrite Hnul. simpl.
    rewrite bool_decide_eq_true_2; [done|].
    destruct (decide (temp_name E ".odt" "" (files w) = s))
      as [->|Hne].
    + rewrite lookup_insert_eq. eauto.
    + by rewrite lookup_insert_ne.
  - erewrite F_bind_Raise; [reflexivity|].
    unfold makeTmpFile. erewrite F_bind_Ok by exact Hnew.
    by erewrite F_bind_Raise by reflexivity.
Qed.

(** X27: Once the input is in its temporary file, odt2pdf starts unoconv once,
    on the free port found from 10000. On exit status 0 it returns the
    content of the output file and removes both temporary files; on another
    status it removes only the input file and raises RuntimeError; an error
    of starting unoconv leaves both files. *)
Theorem odt2pdf_cleans_up (input : input) (w : world)
    (inputFileName : string) (w1 : world) :
  makeTmpFile E input ".odt" "" w = (Ok inputFileName, w1) →
  let outputFileName := temp_name E ".pdf" "tmp" (files w1) in
  ∃ port,
    __getFreePort E 10000 = Some port
    ∧ let unoArgs :=
        [path_join (script_dir E) "unoconv";
         "--port"; pretty port; "-f"; "pdf";
         "-u"; "file://" +:+ gettempdir E +:+ "/libreoffice_port"
               +:+ pretty port;
         "-o"; outputFileName; inputFileName] in
      ∀ status files',
        subprocess_call E unoArgs (<[outputFileName := []]> (files w1))
        = (status, files') →
        let after files :=
          {| files := files; stdout := stdout w1 ++ [unoArgs];
             calls := calls w1 ++ [unoArgs] |} in
        (status = Ok 0%Z →
           ∀ pdf, files' !! outputFileName = Some pdf →
             is_Some (files' !! inputFileName) →
             inputFileName ≠ outputFileName →
             odt2pdf E input w
             = (Ok pdf,
                after (delete inputFileName (delete outputFileName files'))))
        ∧ (∀ z, status = Ok z → z ≠ 0%Z →
             is_Some (files' !! inputFileName) →
             odt2pdf E input w
             = (Raise RuntimeError, after (delete inputFileName files')))
        ∧ (∀ e, status = Raise e →
             odt2pdf E input w = (Raise e, after files')).
Proof.
  intros Hin outputFileName.
  destruct (free_port_loop_spec (S (size (listener E))) 10000%N)
    as (port & Hport & _).
  { assert (filter (λ q, (10000 ≤ q)%N) (listener E) ⊆ listener E) as Hsub.
    { intros q [_ ?]%elem_of_filter. done. }
    apply subseteq_size in Hsub. lia. }
  exists port. split; [exact Hport|].
  intros unoArgs status files' Hcall after.
  assert (call E unoArgs
            {| files := <[outputFileName := []]> (files w1);
               stdout := stdout w1 ++ [unoArgs]; calls := calls w1 |}
          = (status, after files')) as Hrun.
  { unfold call. simpl. by rewrite Hcall. }
  unfold odt2pdf, __genericConverter.
  change ("." +:+ "odt") with ".odt". change ("." +:+ "pdf") with ".pdf".
  erewrite F_bind_Ok by exact Hin.
  erewrite F_bind_Ok by (unfold NamedTemporaryFile; reflexivity).
  fold outputFileName.
  erewrite F_bind_Ok.
  2:{ unfold __getUnoConvArgs.
      change (__getFreePort E 10000)
        with (free_port_loop E (S (size (listener E))) 10000).
      rewrite Hport. reflexivity. }
  fold unoArgs.
  erewrite F_bind_Ok by (unfold print; reflexivity).
  split_and!.
  - intros -> pdf Hpdf [odt Hodt] Hne.
    erewrite F_bind_Ok by exact Hrun. simpl.
    erewrite F_bind_Ok by (unfold read_all; simpl; rewrite Hpdf; reflexivity).
    erewrite F_bind_Ok
      by (unfold unlink, set_files; simpl; rewrite Hpdf; reflexivity).
    erewrite F_bind_Ok.
    2:{ unfold unlink, set_files. simpl.
        rewrite lookup_delete_ne, Hodt by done. reflexivity. }
    reflexivity.
  - intros z -> Hz [odt Hodt].
    erewrite F_bind_Ok by exact Hrun.
    apply Z.eqb_neq in Hz. rewrite Hz. simpl.
    erewrite F_bind_Ok
      by (unfold unlink, set_files; simpl; rewrite Hodt; reflexivity).
    reflexivity.
  - intros e ->. by erewrite F_bind_Raise by exact Hrun.
Qed.

End LibreOfficeFacts.

(** ** The further theorems at concrete calls *)

Lemma three_fields_sent :
  send example_env logged_in three_fields empty_world
  = (Ok [], three_fields_world).
Proof. vm_compute. reflexivity. Qed.

Lemma three_fields_is_prepared :
  prepare example_env logged_in three_fields empty_world
  = (Ok three_fields_prepared, {| log := three_fields_log; outbox := [] |}).
Proof. vm_compute. reflexivity. Qed.

Lemma one_path_is_prepared :
  prepare example_env fresh_mailer one_path empty_world
  = (Ok one_path_prepared, empty_world).
Proof. vm_compute. reflexivity. Qed.

Lemma transport_gets_valid_recipients_witness :
  ["a@example.com"; "a@example.com"; "b@example.com"]
  = kept example_env (names_of (to three_fields))
    ++ kept example_env (names_of (cc three_fields))
    ++ kept example_env (names_of (bcc three_fields))
  ∧ ["a@example.com"; "a@example.com"; "b@example.com"] ≠ []
  ∧ Ok [] = smtp_sendmail example_env "test@example.com"
              ["a@example.com"; "a@example.com"; "b@example.com"]
              three_fields_message.
Proof.
  exact (transport_gets_valid_recipients example_env logged_in three_fields
           empty_world (Ok []) three_fields_world "test@example.com"
           ["a@example.com"; "a@example.com"; "b@example.com"]
           three_fields_message three_fields_sent eq_refl).
Defined.

Lemma send_hands_over_at_most_once_witness :
  (outbox three_fields_world = outbox empty_world
   ∨ ∃ entry, outbox three_fields_world = outbox empty_world ++ [entry])
  ∧ (∃ l, log three_fields_world = log empty_world ++ l)
  ∧ (∀ refused, @Ok (list string) [] = Ok refused →
       ∃ entry, outbox three_fields_world = outbox empty_world ++ [entry]).
Proof.
  exact (send_hands_over_at_most_once example_env logged_in three_fields
           empty_world (Ok []) three_fields_world three_fields_sent).
Defined.

Lemma convert_names_accounts_for_every_item_witness :
  Some ["a@example.com"; "=?utf-8?q?Bob?= <bob@example.com>"]
  = Some (kept example_env mixed_names)
  ∧ length (kept example_env mixed_names)
    + length (skipped example_env "to" mixed_names) = 5.
Proof.
  assert (_convert_names example_env (ArgSeq mixed_names) "to" empty_world
          = (Ok (Some ["a@example.com"; "=?utf-8?q?Bob?= <bob@example.com>"]),
             {| log := skipped example_env "to" mixed_names; outbox := [] |}))
    as H by (vm_compute; reflexivity).
  destruct (convert_names_accounts_for_every_item example_env "to" mixed_names
              empty_world _ _ H) as (Hr & _ & _ & Hlen).
  split; [exact Hr | exact Hlen].
Defined.

Lemma message_carries_from_and_subject_witness :
  ("From", "test@example.com") ∈ headers_of three_fields_message
  ∧ ("Subject", "News") ∈ headers_of three_fields_message.
Proof.
  exact (message_carries_from_and_subject example_env logged_in three_fields
           empty_world (Ok []) three_fields_world "test@example.com"
           ["a@example.com"; "a@example.com"; "b@example.com"]
           three_fields_message three_fields_sent eq_refl).
Defined.

Lemma bcc_is_written_to_the_message_witness :
  ("Bcc", "b@example.com") ∈ headers_of three_fields_message
  ∧ ∀ b, b ∈ ["b@example.com"] →
      b ∈ ["a@example.com"; "a@example.com"; "b@example.com"].
Proof.
  assert (kept example_env (names_of (bcc three_fields)) ≠ []) as Hne
    by (vm_compute; discriminate).
  exact (bcc_is_written_to_the_message example_env logged_in three_fields
           empty_world (Ok []) three_fields_world "test@example.com"
           ["a@example.com"; "a@example.com"; "b@example.com"]
           three_fields_message three_fields_sent eq_refl Hne).
Defined.

Lemma not_connected_never_sends_witness :
  _conn fresh_mailer = false
  ∧ outbox (send example_env fresh_mailer one_path empty_world).2
    = outbox empty_world
  ∧ (send example_env fresh_mailer one_path empty_world).1
    = Raise AttributeError.
Proof.
  assert (recipients one_path_prepared ≠ []) as Hne by discriminate.
  destruct (not_connected_never_sends example_env fresh_mailer one_path
              empty_world _ _ eq_refl
              (surjective_pairing
                 (send example_env fresh_mailer one_path empty_world)))
    as (Hout & _ & Herr).
  split_and!; [reflexivity | exact Hout |].
  exact (Herr one_path_prepared empty_world
           (MIMEMultipart "mixed" [readme_part] [])
           one_path_is_prepared eq_refl Hne).
Defined.

Lemma address_string_empty_iff_invalid_witness :
  ("a@example.com" = "" ↔
   is_valid (_extract example_env (IVal (PStr "a@example.com"))) = false)
  ∧ (is_valid (_extract example_env (IVal (PStr "a@example.com"))) = true →
     truthy (_name (_extract example_env (IVal (PStr "a@example.com")))) = false →
     _address (_extract example_env (IVal (PStr "a@example.com")))
     = Some "a@example.com").
Proof.
  exact (address_string_empty_iff_invalid example_env
           (_extract example_env (IVal (PStr "a@example.com")))
           "a@example.com" eq_refl).
Defined.

Lemma one_path_sent :
  send example_env logged_in one_path empty_world
  = (Ok [], {| log := [];
               outbox := [("me@example.com", ["a@example.com"],
                           one_path_message)] |}).
Proof. vm_compute. reflexivity. Qed.

Lemma reply_to_is_optional_witness :
  (WarnReplyToInvalid "test@example.com" ∈ three_fields_log
   ∧ ∀ v, ("Reply-To", v) ∈ headers_of three_fields_message →
       ("Reply-To", v) ∈ header three_fields)
  ∧ ∃ s, __str__ example_env (_extract example_env (reply_to one_path)) = Ok s
         ∧ ("Reply-To", s) ∈ headers_of one_path_message.
Proof.
  assert (reply_to three_fields ≠ IVal PNone) as H1 by discriminate.
  assert (reply_to one_path ≠ IVal PNone) as H2 by discriminate.
  split.
  - exact (proj2 (proj1 (reply_to_is_optional example_env logged_in
                           three_fields empty_world H1) eq_refl)
             (Ok []) three_fields_world "test@example.com"
             ["a@example.com"; "a@example.com"; "b@example.com"]
             three_fields_message three_fields_sent eq_refl).
  - exact (proj2 (reply_to_is_optional example_env logged_in one_path
                    empty_world H2) eq_refl
             (Ok []) _ "me@example.com" ["a@example.com"] one_path_message
             one_path_sent eq_refl).
Defined.

Lemma remote_attachment_name_witness :
  build_attachment example_env 0 (IDict named_remote_attachment) empty_world
  = (Ok (attachment_disposition "photo.png"
           (MIMEAnyType "text" "html" "photo.png"
              (list_byte_of_string "<html></html>") [])), empty_world).
Proof.
  assert ("photo.png" ≠ "") as Hne by discriminate.
  exact (proj1 (remote_attachment_name example_env 0 named_remote_attachment
                  "https://example.com/photo.png"
                  {| get_content_type := "text/html"; get_filename := None;
                     read := list_byte_of_string "<html></html>" |}
                  empty_world "text" "html"
                  eq_refl eq_refl eq_refl eq_refl eq_refl)
           "photo.png" eq_refl Hne).
Defined.

Lemma download_errors_witness :
  build_attachment example_env 0 (IDict missing_remote) empty_world
  = (Raise (MailerException
              (DownloadFailed "https://example.com/missing" "Not Found")),
     empty_world)
  ∧ build_inline example_env 0 (IDict missing_remote) empty_world
    = (Raise (MailerException
                (DownloadFailed "https://example.com/missing" "Not Found")),
       empty_world).
Proof.
  destruct (proj1 (download_errors example_env 0 missing_remote
                     "https://example.com/missing" empty_world
                     eq_refl eq_refl eq_refl)
              "Not Found" eq_refl) as (Ha & Hi & _).
  split; [exact Ha | exact (Hi "gone@example.com" eq_refl eq_refl)].
Defined.

Lemma parts_follow_items_witness :
  length (attachment_parts three_fields_prepared) = 2
  ∧ ∃ part, attachment_parts three_fields_prepared !! 1 = Some part
            ∧ build_attachment example_env 1 (IVal (PStr "README.md"))
                {| log := three_fields_log; outbox := [] |}
              = (Ok part, {| log := three_fields_log; outbox := [] |}).
Proof.
  destruct (parts_follow_items example_env logged_in three_fields empty_world
              three_fields_prepared _ three_fields_is_prepared)
    as (Hlen & Hatt & _).
  split; [exact Hlen | exact (Hatt 1 (IVal (PStr "README.md")) eq_refl)].
Defined.

Lemma loops_stop_at_first_failure_witness :
  build_parts (build_attachment example_env) 0
    ([IVal (PBytes [])] ++ IVal (PInt 7) :: [IVal (PStr "README.md")]) []
    empty_world
  = (Raise (MailerException (AttachmentWrongType 1)), empty_world).
Proof.
  apply (proj1 (loops_stop_at_first_failure example_env empty_world
                  [IVal (PBytes [])] (IVal (PInt 7))
                  [IVal (PStr "README.md")]
                  (MailerException (AttachmentWrongType 1)))).
  - intros [|k] y Hk; [|by destruct k].
    injection Hk as <-. eexists. vm_compute. reflexivity.
  - reflexivity.
Defined.

Lemma single_attachment_is_wrapped_witness :
  ∃ part, attachment_parts one_path_prepared = [part]
          ∧ build_attachment example_env 0 (IVal (PStr "README.md")) empty_world
            = (Ok part, empty_world).
Proof.
  exact (proj2 (single_attachment_is_wrapped example_env fresh_mailer one_path
                  empty_world one_path_prepared empty_world
                  (IVal (PStr "README.md")) one_path_is_prepared eq_refl)
           eq_refl).
Defined.

Lemma inline_part_name_witness :
  char_in "@" "logo" = false
  ∧ (∃ rest, "logo@cloudflare.com" = "logo" +:+ "@" +:+ rest)
  ∧ name_of logo_part = "logo".
Proof.
  assert (build_inline example_env 0 (IDict logo_inline) empty_world
          = (Ok logo_part, empty_world)) as H by (vm_compute; reflexivity).
  destruct (inline_part_name example_env 0 logo_inline "logo@cloudflare.com"
              empty_world logo_part empty_world eq_refl eq_refl H)
    as (Hno & Hrest & Hname & _).
  split_and!; [exact Hno | exact Hrest |].
  apply Hname. right. by eexists.
Defined.

Lemma attachments_wrap_mixed_witness :
  compose three_fields_prepared empty_world
  = (Ok (Some (MIMEMultipart "mixed"
                 (MIMEText "text" "us-ascii" "hi" []
                  :: attachment_parts three_fields_prepared) [])),
     empty_world)
  ∧ compose one_path_prepared empty_world
    = (Ok (Some (MIMEMultipart "mixed" [readme_part] [])), empty_world).
Proof.
  assert (attachment_parts three_fields_prepared ≠ []) as H1 by discriminate.
  assert (attachment_parts one_path_prepared ≠ []) as H2 by discriminate.
  split.
  - exact (proj1 (attachments_wrap_mixed three_fields_prepared empty_world H1)
             eq_refl).
  - exact (proj1 (attachments_wrap_mixed one_path_prepared empty_world H2)
             eq_refl).
Defined.

Lemma odt2pdf_cleans_up_witness :
  LibreOffice.odt2pdf example_office
    (LibreOffice.InFile (list_byte_of_string "text")) office_start
  = (LibreOffice.Ok (list_byte_of_string "%PDF-text"),
     {| LibreOffice.files := ∅;
        LibreOffice.stdout := [example_unoconv_args];
        LibreOffice.calls := [example_unoconv_args] |}).
Proof.
  destruct (odt2pdf_cleans_up example_office
              (LibreOffice.InFile (list_byte_of_string "text")) office_start
              "/tmp/0.odt"
              {| LibreOffice.files :=
                   {[ "/tmp/0.odt" := list_byte_of_string "text" ]};
                 LibreOffice.stdout := []; LibreOffice.calls := [] |}
              eq_refl) as (port & Hport & H).
  assert (port = 10002%N) as -> by (vm_compute in Hport; congruence).
  cbv zeta in H.
  destruct (H _ _ eq_refl) as (Hok & _).
  assert ("/tmp/0.odt" ≠ "/tmp/tmp1.pdf") as Hne by discriminate.
  rewrite (Hok eq_refl (list_byte_of_string "%PDF-text") eq_refl
             (ex_intro _ (list_byte_of_string "text") eq_refl) Hne).
  vm_compute. reflexivity.
Defined.

(** ** [from_env_vars] *)

Lemma connect_Ok_inv (E : Env) (self self' : Mailer) :
  connect E self = (self', Ok tt) →
  _host self' = _host self ∧ _port self' = _port self
  ∧ _cipher self' = _cipher self ∧ _user self' = _user self
  ∧ _conn self' = true.
Proof.
  intros H.
  destruct (connect_cases E self) as [[e He]|[He|(e & _ & _ & He)]];
    rewrite He in H; try done.
  by injection H as <-.
Qed.

Lemma env_login_Built (E : Env) (P : Process) (self mailer : Mailer) :
  _conn self = true →
  env_login E P self = Built mailer →
  _host mailer = _host self ∧ _port mailer = _port self
  ∧ _cipher mailer = _cipher self ∧ _conn mailer = true
  ∧ _user mailer
    = match environ P !! "SMTP_USER", environ P !! "SMTP_PASSWORD" with
      | Some user, Some _ => Some user
      | _, _ => _user self
      end.
Proof.
  intros Hconn. unfold env_login, login. rewrite Hconn.
  destruct (environ P !! "SMTP_USER") as [user|];
    [destruct (environ P !! "SMTP_PASSWORD") as [password|]|].
  - destruct (smtp_login E user password); [|done].
    intros [= <-]. by rewrite Hconn.
  - by intros [= <-].
  - by intros [= <-].
Qed.

(** X28: Without the variable SMTP_HOST, from_env_vars never returns a
    Mailer: the host name of the machine passes the first check only, and
    when the port and the cipher are accepted the lookup os.environ of
    SMTP_HOST raises KeyError. *)
Theorem from_env_vars_needs_SMTP_HOST (E : Env) (P : Process) :
  environ P !! "SMTP_HOST" = None →
  (∀ mailer, from_env_vars E P ≠ Built mailer)
  ∧ (gethostname P ≠ "" →
     ∀ port cipher, env_port P = inr port → env_cipher P port = inr cipher →
       from_env_vars E P = Failed (KeyError "SMTP_HOST")).
Proof.
  intros Hhost. unfold from_env_vars. rewrite Hhost. simpl. split.
  - intros mailer. destruct (String.eqb _ _); [done|].
    destruct (env_port P) as [e|port]; [done|].
    by destruct (env_cipher P port).
  - intros Hname port cipher -> ->.
    apply String.eqb_neq in Hname. by rewrite Hname.
Qed.

(** X29: A Mailer returned by from_env_vars is connected to the host of
    SMTP_HOST, which is not empty; its port is 25 without SMTP_PORT, its
    cipher follows the port without SMTP_CIPHER and is the named member of
    Cipher otherwise; it has a login user exactly when SMTP_USER and
    SMTP_PASSWORD are both set. *)
Theorem from_env_vars_defaults (E : Env) (P : Process) (mailer : Mailer) :
  from_env_vars E P = Built mailer →
  environ P !! "SMTP_HOST" = Some (_host mailer)
  ∧ _host mailer ≠ ""
  ∧ _conn mailer = true
  ∧ (environ P !! "SMTP_PORT" = None → _port mailer = 25%Z)
  ∧ (environ P !! "SMTP_CIPHER" = None →
     _cipher mailer = from_port (_port mailer))
  ∧ (∀ name, environ P !! "SMTP_CIPHER" = Some name → name ≠ "" →
       Cipher_of_name name = Some (_cipher mailer))
  ∧ _user mailer
    = match environ P !! "SMTP_USER", environ P !! "SMTP_PASSWORD" with
      | Some user, Some _ => Some user
      | _, _ => None
      end.
Proof.
  unfold from_env_vars.
  destruct (environ P !! "SMTP_HOST") as [host|] eqn:Hhost; simpl.
  2: { destruct (String.eqb _ _); [done|].
       destruct (env_port P) as [e|port]; [done|].
       by destruct (env_cipher P port). }
  destruct (String.eqb host "") eqn:Hne; [done|].
  apply String.eqb_neq in Hne.
  destruct (env_port P) as [e|port] eqn:Hport; [done|].
  destruct (env_cipher P port) as [e|cipher] eqn:Hcipher; [done|].
  destruct (connect E _) as [self [[]|e]] eqn:Hconnect; [|done].
  apply connect_Ok_inv in Hconnect as (Hh & Hp & Hc & Hu & Hconn).
  simpl in Hh, Hp, Hc, Hu.
  intros Hlogin.
  apply env_login_Built in Hlogin as (Hh' & Hp' & Hc' & Hconn' & Hu');
    [|done].
  rewrite Hh', Hp', Hc', Hh, Hp, Hc. rewrite Hu in Hu'.
  split_and!; [done|done|done| | | |done].
  - intros Hnone. unfold env_port in Hport. rewrite Hnone in Hport.
    by injection Hport as <-.
  - intros Hnone. unfold env_cipher in Hcipher. rewrite Hnone in Hcipher.
    by injection Hcipher as <-.
  - intros name Hname Hnonempty. unfold env_cipher in Hcipher.
    rewrite Hname in Hcipher. destruct name as [|a name]; [done|].
    destruct (Cipher_of_name _); [|done]. by injection Hcipher as <-.
Qed.

Lemma from_env_vars_needs_SMTP_HOST_witness :
  (∀ mailer, from_env_vars example_env bare_process ≠ Built mailer)
  ∧ from_env_vars example_env bare_process = Failed (KeyError "SMTP_HOST").
Proof.
  assert (gethostname bare_process ≠ "") as Hname by discriminate.
  destruct (from_env_vars_needs_SMTP_HOST example_env bare_process eq_refl)
    as (Hnever & Hkey).
  split; [exact Hnever | exact (Hkey Hname 25%Z PLAIN eq_refl eq_refl)].
Defined.

Lemma from_env_vars_defaults_witness :
  _host logged_in_from_env = "mail.example.com"
  ∧ _port logged_in_from_env = 587%Z
  ∧ _cipher logged_in_from_env = START_TLS
  ∧ _user logged_in_from_env = Some "postmaster@example.com".
Proof.
  assert (from_env_vars example_env full_process = Built logged_in_from_env)
    as H by (vm_compute; reflexivity).
  destruct (from_env_vars_defaults example_env full_process _ H)
    as (Hh & _ & _ & _ & Hc & _ & Hu).
  split_and!; [reflexivity | reflexivity | exact (Hc eq_refl) | exact Hu].
Defined.
